(** * logpiper: the [test-python/app.py] heartbeat emitter

    The script prints two banner lines, then loops forever: it increments
    a counter, prints one status line chosen by the counter's residues
    modulo 8, 12 and 5, and sleeps three seconds.

    The script talks to its environment (two output streams, the random
    number generator, the clock) and never terminates, so it is embedded
    as an interaction tree over the three library calls it makes.  Its
    behaviours are the finite event traces the tree can perform against an
    environment that honours the contracts of those calls. *)

From Stdlib Require Import ZArith String Ascii List Lia.
From Stdlib Require Import DecimalString DecimalPos DecimalZ.
From Stdlib Require Import QArith Lqa.
From ITree Require Import ITree Eq.Shallow.
Import ListNotations ITreeNotations.
Local Open Scope string_scope.
Local Open Scope list_scope.
Local Open Scope itree_scope.
Local Open Scope Z_scope.
Set Implicit Arguments.

(** * The model *)

(** ** Traces of interaction trees *)

Section Traces.

Context {E : Type -> Type} {O : Type}.

(** [allowed e x]: the environment may answer the call [e] with [x]. *)
Variable allowed : forall T, E T -> T -> Prop.
(** [occurs e x]: what an observer sees when [e] is answered with [x]. *)
Variable occurs : forall T, E T -> T -> O.

(** [returns t tr r]: [t] performs exactly [tr] and then returns [r]. *)
Inductive returns {R} : itree E R -> list O -> R -> Prop :=
| returns_ret t r :
    observe t = RetF r -> returns t [] r
| returns_tau t u tr r :
    observe t = TauF u -> returns u tr r -> returns t tr r
| returns_vis t T (e : E T) k x tr r :
    observe t = VisF e k -> allowed e x -> returns (k x) tr r ->
    returns t (occurs e x :: tr) r.

(** [performs t tr]: [tr] is a finite prefix of a behaviour of [t]. *)
Inductive performs {R} : itree E R -> list O -> Prop :=
| performs_nil t :
    performs t []
| performs_tau t u tr :
    observe t = TauF u -> performs u tr -> performs t tr
| performs_vis t T (e : E T) k x tr :
    observe t = VisF e k -> allowed e x -> performs (k x) tr ->
    performs t (occurs e x :: tr).

End Traces.

(** What [ITree.iter step] does with the outcome of one round of [step]:
    go round again, or stop with the result. *)
Definition iter_next {E : Type -> Type} {I R}
           (step : I -> itree E (I + R)) (lr : I + R)
  : itree E R :=
  match lr with
  | inl i => Tau (ITree.iter step i)
  | inr r => Ret r
  end.

Unset Implicit Arguments.

(** ** The script *)

(** [sys.stdout] and [sys.stderr]. *)
Inductive stream : Set := stdout | stderr.

(** The three library calls of the script: [print(s, file=f)],
    [random.randint(a, b)] and [time.sleep(secs)]. *)
Variant pyE : Type -> Type :=
| Print (s : string) (file : stream) : pyE unit
| Randint (a b : Z) : pyE Z
| Sleep (secs : Z) : pyE unit.

Definition print (s : string) (file : stream) : itree pyE unit :=
  ITree.trigger (Print s file).
Definition randint (a b : Z) : itree pyE Z :=
  ITree.trigger (Randint a b).
Definition sleep (secs : Z) : itree pyE unit :=
  ITree.trigger (Sleep secs).

(** [str(n)], the formatting an f-string applies to an integer field:
    the decimal numeral, with a leading minus sign when negative. *)
Definition str (n : Z) : string := NilZero.string_of_int (Z.to_int n).

(** One pass through the body of [while True:], entered with counter
    [count]; it hands the updated counter to the next pass. *)
Definition loop_body (count : Z) : itree pyE Z :=
  let count := count + 1 in
  (if count mod 8 =? 0 then
     print "❌ ImportError: No module named 'requests'" stderr
   else if count mod 12 =? 0 then
     print "✅ Database connection successful" stdout
   else if count mod 5 =? 0 then
     r <- randint 1 100 ;;
     print ("📊 Processing data batch " ++ str r) stdout
   else
     print ("[INFO] Application running - iteration " ++ str count) stdout) ;;
  sleep 3 ;;
  Ret count.

(** [while True:] has no [break]: every pass asks for another one. *)
Definition again (count : Z) : itree pyE (Z + unit) :=
  count' <- loop_body count ;; Ret (inl count').

Definition main_loop (count : Z) : itree pyE unit :=
  ITree.iter again count.

(** The whole module; returning would be the script reaching its end. *)
Definition app : itree pyE unit :=
  print "🐍 Starting Python application..." stdout ;;
  print "📁 Project: test-python" stdout ;;
  main_loop 0.

(** ** The environment *)

(** What an observer of the process sees. *)
Inductive obs : Set :=
| Wrote (file : stream) (text : string)
| Drew (a b r : Z)
| Slept (secs : Z).

Definition newline : string := String (ascii_of_nat 10) EmptyString.

(** [print] writes its argument and a line end to the stream;
    [randint a b] is observed together with the number it drew. *)
Definition py_occurs (T : Type) (e : pyE T) : T -> obs :=
  match e in pyE T return T -> obs with
  | Print s file => fun _ => Wrote file (s ++ newline)
  | Randint a b => fun r => Drew a b r
  | Sleep secs => fun _ => Slept secs
  end.

(** [randint a b] answers with some [r] such that [a <= r <= b]; the other
    two calls answer [None] unconditionally. *)
Definition py_allowed (T : Type) (e : pyE T) : T -> Prop :=
  match e in pyE T return T -> Prop with
  | Print _ _ => fun _ => True
  | Randint a b => fun r => a <= r <= b
  | Sleep _ => fun _ => True
  end.

Arguments py_occurs {T} e _.
Arguments py_allowed {T} e _.

Abbreviation runs := (returns (@py_allowed) (@py_occurs)).
Abbreviation emits := (performs (@py_allowed) (@py_occurs)).

(** A deterministic run against a source [rnd] of raw random numbers, cut
    after [fuel] steps of the tree.  [randint a b] with [b < a] raises
    [ValueError], which ends the script. *)
Fixpoint exec {R} (fuel : nat) (rnd : nat -> Z) (i : nat) (t : itree pyE R)
  : list obs :=
  match fuel with
  | O => []
  | S fuel =>
      match observe t with
      | RetF _ => []
      | TauF u => exec fuel rnd i u
      | VisF e k =>
          match e in pyE T return (T -> itree pyE R) -> list obs with
          | Print s file => fun k =>
              py_occurs (Print s file) tt :: exec fuel rnd i (k tt)
          | Randint a b => fun k =>
              if a <=? b then
                let r := a + rnd i mod (b - a + 1) in
                py_occurs (Randint a b) r :: exec fuel rnd (S i) (k r)
              else []
          | Sleep secs => fun k =>
              py_occurs (Sleep secs) tt :: exec fuel rnd i (k tt)
          end k
      end
  end.

(** The lines written, in order, each with its stream. *)
Fixpoint writes (tr : list obs) : list (stream * string) :=
  match tr with
  | [] => []
  | Wrote file text :: tr => (file, text) :: writes tr
  | _ :: tr => writes tr
  end.

(** The numbers drawn from the random generator, in order. *)
Fixpoint draws (tr : list obs) : list Z :=
  match tr with
  | [] => []
  | Drew _ _ r :: tr => r :: draws tr
  | _ :: tr => draws tr
  end.

(** ** The loop *)

(** [passes c k tr c']: [k] consecutive passes, the first one entered with
    counter [c], perform [tr] and hand counter [c'] to the next pass. *)
Inductive passes : Z -> nat -> list obs -> Z -> Prop :=
| passes_O c :
    passes c 0 [] c
| passes_S c k tr c' tr' c'' :
    passes c k tr c' -> runs (loop_body c') tr' c'' ->
    passes c (S k) (tr ++ tr') c''.

Definition prefix_of {A} (t tr : list A) : Prop :=
  exists rest, tr = t ++ rest.

(** ** The whole script *)

(** What lines 6 and 7 of the script print before the loop is entered. *)
Definition banner : list obs :=
  [Wrote stdout ("🐍 Starting Python application..." ++ newline);
   Wrote stdout ("📁 Project: test-python" ++ newline)].

(** ** Lines and numerals *)

(** The number of line ends in a text. *)
Fixpoint line_ends (s : string) : nat :=
  match s with
  | EmptyString => 0
  | String a s => (if Ascii.eqb a (ascii_of_nat 10) then 1 else 0) + line_ends s
  end.

(** [int(s)] on a decimal numeral. *)
Definition int (s : string) : option Z :=
  option_map Z.of_int (NilZero.int_of_string s).

(** ** Time *)

(** The least time a call takes: [time.sleep(secs)] suspends the thread
    for at least [secs] seconds; the other calls may return at once. *)
Definition least_duration (o : obs) : Q :=
  match o with
  | Slept secs => inject_Z secs
  | _ => 0%Q
  end.

(** [clocked now tr ts]: the run [tr] starts at time [now] and [ts] lists,
    for each of its calls, the reading of a monotonic clock (in seconds)
    when the call returned. *)
Fixpoint clocked (now : Q) (tr : list obs) (ts : list Q) : Prop :=
  match tr, ts with
  | [], [] => True
  | o :: tr, t :: ts =>
      (now <= t /\ now + least_duration o <= t)%Q /\ clocked t tr ts
  | _, _ => False
  end.

(** The clock readings of the lines written. *)
Fixpoint write_times (tr : list obs) (ts : list Q) : list Q :=
  match tr, ts with
  | Wrote _ _ :: tr, t :: ts => t :: write_times tr ts
  | _ :: tr, _ :: ts => write_times tr ts
  | _, _ => []
  end.

(** Consecutive readings are at least [d] apart. *)
Fixpoint spaced (d : Q) (ts : list Q) : Prop :=
  match ts with
  | t :: (u :: _) as rest => (t + d <= u)%Q /\ spaced d rest
  | _ => True
  end.

(** ** Streams *)

Definition stream_eqb (f g : stream) : bool :=
  match f, g with
  | stdout, stdout | stderr, stderr => true
  | _, _ => false
  end.

(** The texts one stream has received, in order. *)
Fixpoint lines_on (f : stream) (tr : list obs) : list string :=
  match tr with
  | [] => []
  | Wrote g text :: tr =>
      if stream_eqb g f then text :: lines_on f tr else lines_on f tr
  | _ :: tr => lines_on f tr
  end.

(** The clock readings of the writes to one stream. *)
Fixpoint times_on (f : stream) (tr : list obs) (ts : list Q) : list Q :=
  match tr, ts with
  | Wrote g _ :: tr, t :: ts =>
      if stream_eqb g f then t :: times_on f tr ts else times_on f tr ts
  | _ :: tr, _ :: ts => times_on f tr ts
  | _, _ => []
  end.

(** The first twelve passes of the sample run, the banner left out. *)
Definition first_twelve : list obs :=
  skipn 2 (exec 40 (fun _ => 41) 0 app).

(** The calls the script is written to make: the import-error line is
    the only text for the standard error stream, numbers are drawn between
    1 and 100, and every sleep lasts three seconds. *)
Definition expected (o : obs) : Prop :=
  match o with
  | Wrote stderr text =>
      text = ("❌ ImportError: No module named 'requests'" ++ newline)%string
  | Wrote stdout _ => True
  | Drew a b r => a = 1 /\ b = 100 /\ 1 <= r <= 100
  | Slept secs => secs = 3
  end.

(** * Facts about traces *)

(** Two equal [VisF] nodes carry the same call and the same continuation. *)
Ltac same_vis H :=
  let p := fresh "p" in
  let He := fresh "He" in
  let Hk := fresh "Hk" in
  apply eq_inv_VisF_weak in H; destruct H as (p & He & Hk);
  destruct p; cbn in He, Hk; subst.

(** The three tests of the [if]/[elif] chain on the incremented counter. *)
Ltac residues n :=
  let H8 := fresh "H8" in
  let H12 := fresh "H12" in
  let H5 := fresh "H5" in
  destruct (n mod 8 =? 0) eqn:H8;
  [ apply Z.eqb_eq in H8
  | apply Z.eqb_neq in H8;
    destruct (n mod 12 =? 0) eqn:H12;
    [ apply Z.eqb_eq in H12
    | apply Z.eqb_neq in H12;
      destruct (n mod 5 =? 0) eqn:H5;
      [ apply Z.eqb_eq in H5 | apply Z.eqb_neq in H5 ] ] ].

Set Implicit Arguments.

Section TraceFacts.

(** The facts hold for every environment. *)
Context {E : Type -> Type} {O : Type}.
Variable allowed : forall T, E T -> T -> Prop.
Variable occurs : forall T, E T -> T -> O.

Local Abbreviation returns := (returns allowed occurs).
Local Abbreviation performs := (performs allowed occurs).

(** Both relations only look at a tree through [observe]. *)
Lemma returns_observe {R} (t u : itree E R) tr r :
  observe t = observe u -> returns t tr r -> returns u tr r.
Proof.
  intros Heq H. destruct H.
  - apply returns_ret. congruence.
  - eapply returns_tau; [|eassumption]. congruence.
  - eapply returns_vis; [|eassumption..]. congruence.
Qed.

Lemma performs_observe {R} (t u : itree E R) tr :
  observe t = observe u -> performs t tr -> performs u tr.
Proof.
  intros Heq H. destruct H.
  - apply performs_nil.
  - eapply performs_tau; [|eassumption]. congruence.
  - eapply performs_vis; [|eassumption..]. congruence.
Qed.

(** A trace that runs to a result is in particular performed, and so is
    each of its prefixes. *)
Lemma returns_performs {R} (t : itree E R) tr r :
  returns t tr r -> performs t tr.
Proof.
  induction 1.
  - apply performs_nil.
  - eapply performs_tau; eassumption.
  - eapply performs_vis; eassumption.
Qed.

Lemma performs_app_l {R} (t : itree E R) tr1 tr2 :
  performs t (tr1 ++ tr2) -> performs t tr1.
Proof.
  remember (tr1 ++ tr2) as tr eqn:Htr. intros H. revert tr1 Htr.
  induction H; intros tr1 Htr.
  - symmetry in Htr. apply app_eq_nil in Htr as [-> _]. apply performs_nil.
  - eapply performs_tau; [eassumption|]. now apply IHperforms.
  - destruct tr1 as [|o tr1]; [apply performs_nil|].
    injection Htr as <- Htr.
    eapply performs_vis; [eassumption..|]. now apply IHperforms.
Qed.

(** *** Leaves, silent steps and single calls *)

Lemma returns_Ret {R} (x : R) tr r :
  returns (Ret x) tr r <-> tr = [] /\ r = x.
Proof.
  split.
  - intros H. inversion H; subst; cbn in *; try discriminate.
    split; congruence.
  - intros [-> ->]. now apply returns_ret.
Qed.

Lemma performs_Ret {R} (x : R) tr :
  performs (Ret x) tr <-> tr = [].
Proof.
  split.
  - intros H. inversion H; subst; cbn in *; try discriminate. reflexivity.
  - intros ->. apply performs_nil.
Qed.

Lemma returns_Tau {R} (t : itree E R) tr r :
  returns (Tau t) tr r <-> returns t tr r.
Proof.
  split.
  - intros H. inversion H; subst; cbn in *; try discriminate. congruence.
  - intros H. eapply returns_tau; [reflexivity | assumption].
Qed.

Lemma performs_Tau {R} (t : itree E R) tr :
  performs (Tau t) tr <-> performs t tr.
Proof.
  split.
  - intros H. inversion H; subst; cbn in *; try discriminate.
    + apply performs_nil.
    + congruence.
  - intros H. eapply performs_tau; [reflexivity | assumption].
Qed.

Lemma returns_Vis {R T} (e : E T) (k : T -> itree E R) tr r :
  returns (Vis e k) tr r <->
  exists x tr', allowed e x /\ returns (k x) tr' r /\ tr = occurs e x :: tr'.
Proof.
  split.
  - intros H. inversion H as [| |t T' e' k' x tr' r' Hobs Hx Hk]; subst;
      cbn in *; try discriminate.
    clear H. same_vis Hobs. exists x, tr'. auto.
  - intros (x & tr' & Hx & Hk & ->).
    eapply returns_vis; [reflexivity | eassumption..].
Qed.

Lemma performs_Vis {R T} (e : E T) (k : T -> itree E R) tr :
  performs (Vis e k) tr <->
  tr = [] \/
  exists x tr', allowed e x /\ performs (k x) tr' /\ tr = occurs e x :: tr'.
Proof.
  split.
  - intros H. inversion H as [| |t T' e' k' x tr' Hobs Hx Hk]; subst;
      cbn in *; try discriminate.
    + now left.
    + right. clear H. same_vis Hobs. exists x, tr'. auto.
  - intros [-> | (x & tr' & Hx & Hk & ->)].
    + apply performs_nil.
    + eapply performs_vis; [reflexivity | eassumption..].
Qed.

(** *** Sequencing *)

Lemma returns_bind_intro {R S} (t : itree E R) (k : R -> itree E S)
      tr1 x tr2 r :
  returns t tr1 x -> returns (k x) tr2 r ->
  returns (ITree.bind t k) (tr1 ++ tr2) r.
Proof.
  intros Ht Hk. induction Ht as [t x Hobs|t u tr x Hobs _ IH|t T e h y tr x Hobs Hy _ IH].
  - eapply returns_observe; [|exact Hk].
    rewrite observe_bind, Hobs. reflexivity.
  - eapply returns_tau; [|exact (IH Hk)].
    rewrite observe_bind, Hobs. reflexivity.
  - cbn [app]. eapply returns_vis with (k := fun y => ITree.bind (h y) k);
      [|exact Hy|exact (IH Hk)].
    rewrite observe_bind, Hobs. reflexivity.
Qed.

Lemma performs_bind_intro {R S} (t : itree E R) (k : R -> itree E S)
      tr1 x tr2 :
  returns t tr1 x -> performs (k x) tr2 ->
  performs (ITree.bind t k) (tr1 ++ tr2).
Proof.
  intros Ht Hk. induction Ht as [t x Hobs|t u tr x Hobs _ IH|t T e h y tr x Hobs Hy _ IH].
  - eapply performs_observe; [|exact Hk].
    rewrite observe_bind, Hobs. reflexivity.
  - eapply performs_tau; [|exact (IH Hk)].
    rewrite observe_bind, Hobs. reflexivity.
  - cbn [app]. eapply performs_vis with (k := fun y => ITree.bind (h y) k);
      [|exact Hy|exact (IH Hk)].
    rewrite observe_bind, Hobs. reflexivity.
Qed.

Lemma performs_bind_head {R S} (t : itree E R) (k : R -> itree E S) tr :
  performs t tr -> performs (ITree.bind t k) tr.
Proof.
  induction 1 as [t|t u tr Hobs _ IH|t T e h y tr Hobs Hy _ IH].
  - apply performs_nil.
  - eapply performs_tau; [|exact IH].
    rewrite observe_bind, Hobs. reflexivity.
  - eapply performs_vis with (k := fun y => ITree.bind (h y) k);
      [|exact Hy|exact IH].
    rewrite observe_bind, Hobs. reflexivity.
Qed.

Lemma returns_bind_inv {R S} (k : R -> itree E S) (u : itree E S) tr r :
  returns u tr r ->
  forall t : itree E R, observe u = observe (ITree.bind t k) ->
  exists tr1 x tr2,
    returns t tr1 x /\ returns (k x) tr2 r /\ tr = tr1 ++ tr2.
Proof.
  induction 1 as [u r Hobs|u v tr r Hobs Hv IH|u T e h y tr r Hobs Hy Hh IH];
    intros t Hu; rewrite observe_bind in Hu;
    destruct (observe t) as [x|t0|T0 e0 h0] eqn:Ht; cbn in Hu.
  - exists [], x, []. repeat split.
    + now apply returns_ret.
    + eapply returns_observe; [exact Hu|]. now apply returns_ret.
  - congruence.
  - congruence.
  - exists [], x, tr. repeat split.
    + now apply returns_ret.
    + eapply returns_observe; [exact Hu|]. eapply returns_tau; eassumption.
  - assert (v = ITree.bind t0 k) as -> by congruence.
    destruct (IH t0 eq_refl) as (tr1 & x & tr2 & H1 & H2 & ->).
    exists tr1, x, tr2. repeat split; [|assumption].
    eapply returns_tau; eassumption.
  - congruence.
  - exists [], x, (occurs e y :: tr). repeat split.
    + now apply returns_ret.
    + eapply returns_observe; [exact Hu|]. eapply returns_vis; eassumption.
  - congruence.
  - rewrite Hobs in Hu. same_vis Hu.
    destruct (IH (h0 y) eq_refl) as (tr1 & x & tr2 & H1 & H2 & ->).
    exists (occurs e0 y :: tr1), x, tr2. repeat split; [|assumption].
    eapply returns_vis; eassumption.
Qed.

Lemma performs_bind_inv {R S} (k : R -> itree E S) (u : itree E S) tr :
  performs u tr ->
  forall t : itree E R, observe u = observe (ITree.bind t k) ->
  performs t tr \/
  exists tr1 x tr2,
    returns t tr1 x /\ performs (k x) tr2 /\ tr = tr1 ++ tr2.
Proof.
  induction 1 as [u|u v tr Hobs Hv IH|u T e h y tr Hobs Hy Hh IH];
    intros t Hu; [left; apply performs_nil|..];
    rewrite observe_bind in Hu;
    destruct (observe t) as [x|t0|T0 e0 h0] eqn:Ht; cbn in Hu.
  - right. exists [], x, tr. repeat split.
    + now apply returns_ret.
    + eapply performs_observe; [exact Hu|]. eapply performs_tau; eassumption.
  - assert (v = ITree.bind t0 k) as -> by congruence.
    destruct (IH t0 eq_refl) as [H1|(tr1 & x & tr2 & H1 & H2 & ->)].
    + left. eapply performs_tau; eassumption.
    + right. exists tr1, x, tr2. repeat split; [|assumption].
      eapply returns_tau; eassumption.
  - congruence.
  - right. exists [], x, (occurs e y :: tr). repeat split.
    + now apply returns_ret.
    + eapply performs_observe; [exact Hu|]. eapply performs_vis; eassumption.
  - congruence.
  - rewrite Hobs in Hu. same_vis Hu.
    destruct (IH (h0 y) eq_refl) as [H1|(tr1 & x & tr2 & H1 & H2 & ->)].
    + left. eapply performs_vis; eassumption.
    + right. exists (occurs e0 y :: tr1), x, tr2. repeat split; [|assumption].
      eapply returns_vis; eassumption.
Qed.

Lemma returns_bind {R S} (t : itree E R) (k : R -> itree E S) tr r :
  returns (ITree.bind t k) tr r <->
  exists tr1 x tr2,
    returns t tr1 x /\ returns (k x) tr2 r /\ tr = tr1 ++ tr2.
Proof.
  split.
  - intros H. now apply (returns_bind_inv k H).
  - intros (tr1 & x & tr2 & H1 & H2 & ->).
    eapply returns_bind_intro; eassumption.
Qed.

Lemma performs_bind {R S} (t : itree E R) (k : R -> itree E S) tr :
  performs (ITree.bind t k) tr <->
  performs t tr \/
  exists tr1 x tr2,
    returns t tr1 x /\ performs (k x) tr2 /\ tr = tr1 ++ tr2.
Proof.
  split.
  - intros H. now apply (performs_bind_inv k H).
  - intros [H|(tr1 & x & tr2 & H1 & H2 & ->)].
    + now apply performs_bind_head.
    + eapply performs_bind_intro; eassumption.
Qed.

(** A single library call. *)
Lemma returns_trigger {T} (e : E T) tr r :
  returns (ITree.trigger e) tr r <-> allowed e r /\ tr = [occurs e r].
Proof.
  unfold ITree.trigger. rewrite returns_Vis. split.
  - intros (x & tr' & Hx & Hk & ->).
    apply returns_Ret in Hk as [-> ->]. auto.
  - intros [Hr ->]. exists r, []. repeat split; [assumption|].
    now apply returns_Ret.
Qed.

Lemma performs_trigger {T} (e : E T) tr :
  performs (ITree.trigger e) tr <->
  tr = [] \/ exists x, allowed e x /\ tr = [occurs e x].
Proof.
  unfold ITree.trigger. rewrite performs_Vis. split.
  - intros [->|(x & tr' & Hx & Hk & ->)]; [now left|right].
    apply performs_Ret in Hk as ->. eauto.
  - intros [->|(x & Hx & ->)]; [now left|right].
    exists x, []. repeat split; [assumption|]. now apply performs_Ret.
Qed.

(** A library call followed by the rest of the program. *)
Lemma returns_call {T R} (e : E T) (k : T -> itree E R) tr r :
  returns (ITree.bind (ITree.trigger e) k) tr r <->
  exists x tr', allowed e x /\ returns (k x) tr' r /\ tr = occurs e x :: tr'.
Proof.
  rewrite returns_bind. split.
  - intros (tr1 & x & tr2 & H1 & H2 & ->).
    apply returns_trigger in H1 as [Hx ->]. exists x, tr2. auto.
  - intros (x & tr' & Hx & Hk & ->).
    exists [occurs e x], x, tr'. repeat split; [|assumption].
    now apply returns_trigger.
Qed.

Lemma performs_call {T R} (e : E T) (k : T -> itree E R) tr :
  performs (ITree.bind (ITree.trigger e) k) tr <->
  tr = [] \/
  exists x tr', allowed e x /\ performs (k x) tr' /\ tr = occurs e x :: tr'.
Proof.
  rewrite performs_bind, performs_trigger. split.
  - intros [[->|(x & Hx & ->)]|(tr1 & x & tr2 & H1 & H2 & ->)].
    + now left.
    + right. exists x, []. repeat split; [assumption|apply performs_nil].
    + apply returns_trigger in H1 as [Hx ->]. right. exists x, tr2. auto.
  - intros [->|(x & tr' & Hx & Hk & ->)].
    + left. now left.
    + right. exists [occurs e x], x, tr'. repeat split; [|assumption].
      now apply returns_trigger.
Qed.

(** *** Loops: one unfolding of [ITree.iter] *)

Lemma observe_iter {I R} (step : I -> itree E (I + R)) (i : I) :
  observe (ITree.iter step i) =
  observe (ITree.bind (step i) (iter_next step)).
Proof. reflexivity. Qed.

Lemma returns_iter {I R} (step : I -> itree E (I + R)) (i : I) tr r :
  returns (ITree.iter step i) tr r <->
  returns (ITree.bind (step i) (iter_next step)) tr r.
Proof.
  split; apply returns_observe; [|symmetry]; apply observe_iter.
Qed.

Lemma performs_iter {I R} (step : I -> itree E (I + R)) (i : I) tr :
  performs (ITree.iter step i) tr <->
  performs (ITree.bind (step i) (iter_next step)) tr.
Proof.
  split; apply performs_observe; [|symmetry]; apply observe_iter.
Qed.

End TraceFacts.

Unset Implicit Arguments.

(** * Facts about the script *)

Lemma exec_emits {R} fuel rnd i (t : itree pyE R) :
  emits t (exec fuel rnd i t).
Proof.
  revert i t. induction fuel as [|fuel IH]; intros i t; cbn [exec].
  - apply performs_nil.
  - destruct (observe t) as [r|u|T e k] eqn:Hobs.
    + apply performs_nil.
    + eapply performs_tau; [exact Hobs|apply IH].
    + destruct e as [s file|a b|secs].
      * eapply performs_vis with (x := tt); [exact Hobs|exact I|apply IH].
      * destruct (a <=? b) eqn:Hab; [|apply performs_nil].
        apply Z.leb_le in Hab.
        eapply performs_vis with (x := a + rnd i mod (b - a + 1));
          [exact Hobs| |apply IH].
        cbn. pose proof (Z.mod_pos_bound (rnd i) (b - a + 1)). lia.
      * eapply performs_vis with (x := tt); [exact Hobs|exact I|apply IH].
Qed.

(** ** One pass of the loop *)

(** The calls of the script, each followed by the rest of the pass. *)
Lemma runs_print s file tr (u : unit) :
  runs (print s file) tr u <-> tr = [Wrote file (s ++ newline)].
Proof.
  unfold print. rewrite returns_trigger. cbn. intuition.
Qed.

Lemma runs_print_then {R} s file (k : unit -> itree pyE R) tr r :
  runs (ITree.bind (print s file) k) tr r <->
  exists tr', runs (k tt) tr' r /\ tr = Wrote file (s ++ newline) :: tr'.
Proof.
  unfold print. rewrite returns_call. split.
  - intros ([] & tr' & _ & Hk & ->). eauto.
  - intros (tr' & Hk & ->). exists tt, tr'. repeat split. assumption.
Qed.

Lemma emits_print_then {R} s file (k : unit -> itree pyE R) tr :
  emits (ITree.bind (print s file) k) tr <->
  tr = [] \/
  exists tr', emits (k tt) tr' /\ tr = Wrote file (s ++ newline) :: tr'.
Proof.
  unfold print. rewrite performs_call. split.
  - intros [->|([] & tr' & _ & Hk & ->)]; eauto.
  - intros [->|(tr' & Hk & ->)]; [now left|right].
    exists tt, tr'. repeat split. assumption.
Qed.

Lemma runs_randint_then {R} a b (k : Z -> itree pyE R) tr r :
  runs (ITree.bind (randint a b) k) tr r <->
  exists n tr', a <= n <= b /\ runs (k n) tr' r /\ tr = Drew a b n :: tr'.
Proof. unfold randint. now rewrite returns_call. Qed.

Lemma emits_randint_then {R} a b (k : Z -> itree pyE R) tr :
  emits (ITree.bind (randint a b) k) tr <->
  tr = [] \/
  exists n tr', a <= n <= b /\ emits (k n) tr' /\ tr = Drew a b n :: tr'.
Proof. unfold randint. now rewrite performs_call. Qed.

(** The tail shared by the four branches: [time.sleep(3)], then back to
    the loop head with the updated counter. *)
Lemma runs_sleep_ret (secs n : Z) tr c' :
  runs (sleep secs ;; Ret n) tr c' <-> tr = [Slept secs] /\ c' = n.
Proof.
  unfold sleep. rewrite returns_call. split.
  - intros (x & tr' & _ & Hk & ->). apply returns_Ret in Hk as [-> ->]. auto.
  - intros [-> ->]. exists tt, []. repeat split. now apply returns_Ret.
Qed.

Lemma emits_sleep_ret (secs n : Z) tr :
  emits (sleep secs ;; Ret n) tr <-> tr = [] \/ tr = [Slept secs].
Proof.
  unfold sleep. rewrite performs_call. split.
  - intros [->|(x & tr' & _ & Hk & ->)]; [now left|right].
    now apply performs_Ret in Hk as ->.
  - intros [->| ->]; [now left|right].
    exists tt, []. repeat split. apply performs_nil.
Qed.

(** The complete traces of a pass, branch by branch. *)
Lemma runs_body_error c tr c' :
  (c + 1) mod 8 = 0 ->
  runs (loop_body c) tr c' <->
  tr = [Wrote stderr ("❌ ImportError: No module named 'requests'" ++ newline);
        Slept 3] /\ c' = c + 1.
Proof.
  intros H8. unfold loop_body. cbv zeta. rewrite H8. cbn [Z.eqb].
  rewrite runs_print_then. setoid_rewrite runs_sleep_ret. split.
  - intros (tr' & [-> ->] & ->). auto.
  - intros [-> ->]. eauto.
Qed.

Lemma runs_body_success c tr c' :
  (c + 1) mod 8 <> 0 -> (c + 1) mod 12 = 0 ->
  runs (loop_body c) tr c' <->
  tr = [Wrote stdout ("✅ Database connection successful" ++ newline);
        Slept 3] /\ c' = c + 1.
Proof.
  intros H8 H12. unfold loop_body. cbv zeta.
  apply Z.eqb_neq in H8. rewrite H8, H12. cbn [Z.eqb].
  rewrite runs_print_then. setoid_rewrite runs_sleep_ret. split.
  - intros (tr' & [-> ->] & ->). auto.
  - intros [-> ->]. eauto.
Qed.

Lemma runs_body_batch c tr c' :
  (c + 1) mod 8 <> 0 -> (c + 1) mod 12 <> 0 -> (c + 1) mod 5 = 0 ->
  runs (loop_body c) tr c' <->
  exists r, 1 <= r <= 100 /\
    tr = [Drew 1 100 r;
          Wrote stdout (("📊 Processing data batch " ++ str r) ++ newline);
          Slept 3] /\ c' = c + 1.
Proof.
  intros H8 H12 H5. unfold loop_body. cbv zeta.
  apply Z.eqb_neq in H8, H12. rewrite H8, H12, H5. cbn [Z.eqb].
  rewrite returns_bind. split.
  - intros (tr1 & [] & tr2 & H1 & H2 & ->).
    apply runs_randint_then in H1 as (r & tr' & Hr & H1 & ->).
    apply runs_print in H1 as ->. apply runs_sleep_ret in H2 as [-> ->].
    exists r. auto.
  - intros (r & Hr & -> & ->).
    exists [Drew 1 100 r;
            Wrote stdout (("📊 Processing data batch " ++ str r) ++ newline)],
      tt, [Slept 3].
    repeat split.
    + apply runs_randint_then. exists r. eexists.
      split; [exact Hr|]. split; [|reflexivity].
      now apply runs_print.
    + now apply runs_sleep_ret.
Qed.

Lemma runs_body_heartbeat c tr c' :
  (c + 1) mod 8 <> 0 -> (c + 1) mod 12 <> 0 -> (c + 1) mod 5 <> 0 ->
  runs (loop_body c) tr c' <->
  tr = [Wrote stdout
          (("[INFO] Application running - iteration " ++ str (c + 1)) ++ newline);
        Slept 3] /\ c' = c + 1.
Proof.
  intros H8 H12 H5. unfold loop_body. cbv zeta.
  apply Z.eqb_neq in H8, H12, H5. rewrite H8, H12, H5.
  rewrite runs_print_then. setoid_rewrite runs_sleep_ret.
  split.
  - intros (tr' & [-> ->] & ->). auto.
  - intros [-> ->]. eauto.
Qed.

(** Whatever the branch, a pass leaves the counter incremented by one. *)
Lemma runs_body_counter c tr c' :
  runs (loop_body c) tr c' -> c' = c + 1.
Proof.
  intros H. residues (c + 1).
  - now apply runs_body_error in H as [_ ->].
  - now apply runs_body_success in H as [_ ->].
  - now apply runs_body_batch in H as (_ & _ & _ & ->).
  - now apply runs_body_heartbeat in H as [_ ->].
Qed.

(** A pass always completes: no call of the body can fail. *)
Lemma runs_body_total c :
  exists tr, runs (loop_body c) tr (c + 1).
Proof.
  residues (c + 1).
  - eexists. now apply runs_body_error.
  - eexists. now apply runs_body_success.
  - eexists. apply runs_body_batch; [assumption..|].
    exists 1. repeat split; lia.
  - eexists. now apply runs_body_heartbeat.
Qed.

(** All complete traces of one pass have the same length. *)
Lemma runs_body_length c tr1 c1 tr2 c2 :
  runs (loop_body c) tr1 c1 -> runs (loop_body c) tr2 c2 ->
  length tr1 = length tr2.
Proof.
  intros H1 H2. residues (c + 1).
  - apply runs_body_error in H1 as [-> _], H2 as [-> _]; trivial.
  - apply runs_body_success in H1 as [-> _], H2 as [-> _]; trivial.
  - apply runs_body_batch in H1 as (r1 & _ & -> & _); trivial.
    apply runs_body_batch in H2 as (r2 & _ & -> & _); trivial.
  - apply runs_body_heartbeat in H1 as [-> _], H2 as [-> _]; trivial.
Qed.

(** A pass is never empty: it prints and sleeps. *)
Lemma runs_body_nonempty c tr c' :
  runs (loop_body c) tr c' -> (2 <= length tr)%nat.
Proof.
  intros H. residues (c + 1).
  - apply runs_body_error in H as [-> _]; cbn; trivial.
  - apply runs_body_success in H as [-> _]; cbn; trivial.
  - apply runs_body_batch in H as (r & _ & -> & _); cbn; auto.
  - apply runs_body_heartbeat in H as [-> _]; cbn; trivial.
Qed.

(** Every partial trace of a pass extends to a complete one. *)
Lemma emits_body_extend c t :
  emits (loop_body c) t ->
  exists rest, runs (loop_body c) (t ++ rest) (c + 1).
Proof.
  intros H. residues (c + 1).
  - assert (Hfull := fun tr => proj2 (runs_body_error c tr (c + 1) H8)).
    unfold loop_body in H. cbv zeta in H. rewrite H8 in H. cbn [Z.eqb] in H.
    apply emits_print_then in H as [->|(t' & H & ->)];
      [|apply emits_sleep_ret in H as [->| ->]];
      eexists; cbn [app]; apply Hfull; split; reflexivity.
  - assert (Hfull := fun tr => proj2 (runs_body_success c tr (c + 1) H8 H12)).
    unfold loop_body in H. cbv zeta in H.
    apply Z.eqb_neq in H8. rewrite H8, H12 in H. cbn [Z.eqb] in H.
    apply emits_print_then in H as [->|(t' & H & ->)];
      [|apply emits_sleep_ret in H as [->| ->]];
      eexists; cbn [app]; apply Hfull; split; reflexivity.
  - assert (Hfull := fun tr => proj2 (runs_body_batch c tr (c + 1) H8 H12 H5)).
    unfold loop_body in H. cbv zeta in H.
    apply Z.eqb_neq in H8, H12. rewrite H8, H12, H5 in H. cbn [Z.eqb] in H.
    apply performs_bind in H as [H|(tr1 & [] & tr2 & H1 & H2 & ->)].
    + apply emits_randint_then in H as [->|(r & t' & Hr & H & ->)].
      * eexists. cbn [app]. apply Hfull. exists 1.
        split; [lia|]. split; reflexivity.
      * apply performs_trigger in H as [->|([] & _ & ->)];
          eexists; cbn [app]; apply Hfull; exists r; split; trivial;
          split; reflexivity.
    + apply runs_randint_then in H1 as (r & t' & Hr & H1 & ->).
      apply runs_print in H1 as ->.
      apply emits_sleep_ret in H2 as [->| ->];
        eexists; cbn [app]; apply Hfull; exists r; split; trivial;
        split; reflexivity.
  - assert (Hfull :=
      fun tr => proj2 (runs_body_heartbeat c tr (c + 1) H8 H12 H5)).
    unfold loop_body in H. cbv zeta in H.
    apply Z.eqb_neq in H8, H12, H5. rewrite H8, H12, H5 in H.
    apply emits_print_then in H as [->|(t' & H & ->)];
      [|apply emits_sleep_ret in H as [->| ->]];
      eexists; cbn [app]; apply Hfull; split; reflexivity.
Qed.

Lemma app_same_length {A} (a b x y : list A) :
  length a = length b -> a ++ x = b ++ y -> a = b /\ x = y.
Proof.
  revert b. induction a as [|h a IH]; intros [|h' b] Hlen Heq;
    cbn in *; try discriminate; auto.
  injection Heq as -> Heq. injection Hlen as Hlen.
  destruct (IH b Hlen Heq) as [-> ->]. auto.
Qed.

(** Nothing of the same pass follows a complete trace of it. *)
Lemma runs_body_maximal c tr c' t :
  runs (loop_body c) tr c' -> emits (loop_body c) (tr ++ t) -> t = [].
Proof.
  intros Hr He. apply emits_body_extend in He as (rest & He).
  assert (Hlen : length tr = length ((tr ++ t) ++ rest))
    by (eapply runs_body_length; eassumption).
  rewrite <- app_assoc, length_app in Hlen.
  destruct t; [reflexivity|]. cbn in Hlen. lia.
Qed.

(** A trace splits in at most one way into a complete pass and a rest. *)
Lemma runs_body_split c tr1 c1 tr2 c2 r1 r2 :
  runs (loop_body c) tr1 c1 -> runs (loop_body c) tr2 c2 ->
  tr1 ++ r1 = tr2 ++ r2 -> tr1 = tr2 /\ r1 = r2.
Proof.
  intros H1 H2. apply app_same_length. eapply runs_body_length; eassumption.
Qed.

(** The shape of a pass: possibly a draw, then one line, then the sleep. *)
Lemma runs_body_shape c tr c' :
  runs (loop_body c) tr c' ->
  exists pre file text,
    tr = pre ++ [Wrote file text; Slept 3] /\
    (pre = [] \/ exists r, pre = [Drew 1 100 r]).
Proof.
  intros H. residues (c + 1).
  - apply runs_body_error in H as [-> _]; trivial.
    exists []. eexists. eexists. split; [reflexivity|now left].
  - apply runs_body_success in H as [-> _]; trivial.
    exists []. eexists. eexists. split; [reflexivity|now left].
  - apply runs_body_batch in H as (r & _ & -> & _); trivial.
    exists [Drew 1 100 r]. eexists. eexists. split; [reflexivity|eauto].
  - apply runs_body_heartbeat in H as [-> _]; trivial.
    exists []. eexists. eexists. split; [reflexivity|now left].
Qed.

(** ** The loop *)

Lemma passes_cons c tr c' k tr' c'' :
  runs (loop_body c) tr c' -> passes c' k tr' c'' ->
  passes c (S k) (tr ++ tr') c''.
Proof.
  intros Hb Hp. revert c tr Hb.
  induction Hp as [c'|c' k tr1 c1 tr2 c2 Hp IH Hlast]; intros c tr Hb.
  - rewrite app_nil_r. rewrite <- (app_nil_l tr).
    eapply passes_S; [apply passes_O|exact Hb].
  - rewrite app_assoc. eapply passes_S; [|exact Hlast]. now apply IH.
Qed.

Lemma passes_counter c k tr c' :
  passes c k tr c' -> c' = c + Z.of_nat k.
Proof.
  induction 1 as [c|c k tr c' tr' c'' _ IH Hb].
  - cbn. lia.
  - apply runs_body_counter in Hb. lia.
Qed.

(** From any counter, any number of passes can be run. *)
Lemma passes_total c k :
  exists tr, passes c k tr (c + Z.of_nat k).
Proof.
  induction k as [|k [tr IH]].
  - exists []. replace (c + Z.of_nat 0) with c by (cbn; lia). apply passes_O.
  - destruct (runs_body_total (c + Z.of_nat k)) as [tr' Hb].
    exists (tr ++ tr').
    replace (c + Z.of_nat (S k)) with (c + Z.of_nat k + 1) by lia.
    eapply passes_S; eassumption.
Qed.

(** One unfolding of [while True:]. *)
Lemma runs_again c tr x :
  runs (again c) tr x <-> exists c', runs (loop_body c) tr c' /\ x = inl c'.
Proof.
  unfold again. rewrite returns_bind. split.
  - intros (tr1 & c' & tr2 & H1 & H2 & ->).
    apply returns_Ret in H2 as [-> ->]. rewrite app_nil_r. eauto.
  - intros (c' & H & ->). exists tr, c', []. rewrite app_nil_r.
    repeat split; [assumption|]. now apply returns_Ret.
Qed.

Lemma emits_again c tr :
  emits (again c) tr <-> emits (loop_body c) tr.
Proof.
  unfold again. rewrite performs_bind. split.
  - intros [H|(tr1 & c' & tr2 & H1 & H2 & ->)]; [assumption|].
    apply performs_Ret in H2 as ->. rewrite app_nil_r.
    eapply returns_performs; eassumption.
  - now left.
Qed.

Lemma emits_main_loop_unfold c tr :
  emits (main_loop c) tr <->
  emits (loop_body c) tr \/
  exists tr1 c' tr2,
    runs (loop_body c) tr1 c' /\ emits (main_loop c') tr2 /\ tr = tr1 ++ tr2.
Proof.
  unfold main_loop. rewrite performs_iter, performs_bind, emits_again. split.
  - intros [H|(tr1 & x & tr2 & H1 & H2 & ->)]; [now left|right].
    apply runs_again in H1 as (c' & H1 & ->). cbn [iter_next] in H2.
    rewrite performs_Tau in H2. exists tr1, c', tr2. auto.
  - intros [H|(tr1 & c' & tr2 & H1 & H2 & ->)]; [now left|right].
    exists tr1, (inl c'), tr2. repeat split.
    + apply runs_again. eauto.
    + cbn [iter_next]. now apply performs_Tau.
Qed.

Lemma runs_main_loop_unfold c tr r :
  runs (main_loop c) tr r <->
  exists tr1 c' tr2,
    runs (loop_body c) tr1 c' /\ runs (main_loop c') tr2 r /\ tr = tr1 ++ tr2.
Proof.
  unfold main_loop. rewrite returns_iter, returns_bind. split.
  - intros (tr1 & x & tr2 & H1 & H2 & ->).
    apply runs_again in H1 as (c' & H1 & ->). cbn [iter_next] in H2.
    rewrite returns_Tau in H2. exists tr1, c', tr2. auto.
  - intros (tr1 & c' & tr2 & H1 & H2 & ->).
    exists tr1, (inl c'), tr2. repeat split.
    + apply runs_again. eauto.
    + cbn [iter_next]. now apply returns_Tau.
Qed.

(** The loop has no way out. *)
Lemma main_loop_never_returns c tr r :
  ~ runs (main_loop c) tr r.
Proof.
  remember (length tr) as n eqn:Hn. revert c tr Hn.
  induction n as [n IH] using lt_wf_ind. intros c tr -> H.
  apply runs_main_loop_unfold in H as (tr1 & c' & tr2 & H1 & H2 & ->).
  apply runs_body_nonempty in H1.
  eapply (IH (length tr2)); [|reflexivity|exact H2].
  rewrite length_app. lia.
Qed.

(** After some passes the loop is at its head again, ready for more. *)
Lemma passes_then_emits c k tr c' t :
  passes c k tr c' -> emits (main_loop c') t -> emits (main_loop c) (tr ++ t).
Proof.
  intros Hp. revert t.
  induction Hp as [c|c k tr c' tr' c'' _ IH Hb]; intros t Ht.
  - exact Ht.
  - rewrite <- app_assoc. apply IH.
    apply emits_main_loop_unfold. right. exists tr', c'', t. auto.
Qed.

(** The behaviours of the loop are the prefixes of sequences of passes. *)
Lemma emits_main_loop c tr :
  emits (main_loop c) tr <->
  exists k itr c', passes c k itr c' /\ prefix_of tr itr.
Proof.
  split.
  - remember (length tr) as n eqn:Hn. revert c tr Hn.
    induction n as [n IH] using lt_wf_ind. intros c tr -> H.
    apply emits_main_loop_unfold in H as [H|(tr1 & c' & tr2 & H1 & H2 & ->)].
    + apply emits_body_extend in H as (rest & H).
      exists 1%nat, (tr ++ rest), (c + 1). split; [|now exists rest].
      rewrite <- (app_nil_l (tr ++ rest)).
      eapply passes_S; [apply passes_O|exact H].
    + assert (Hlen := H1). apply runs_body_nonempty in Hlen.
      destruct (IH (length tr2)) with (c := c') (tr := tr2)
        as (k & itr & c'' & Hp & rest & ->); trivial.
      { rewrite length_app. lia. }
      exists (S k), (tr1 ++ tr2 ++ rest), c''. split.
      * eapply passes_cons; eassumption.
      * exists rest. now rewrite app_assoc.
  - intros (k & itr & c' & Hp & rest & ->).
    apply performs_app_l with (tr2 := rest).
    rewrite <- (app_nil_r (tr ++ rest)).
    eapply passes_then_emits; [exact Hp|apply performs_nil].
Qed.

Lemma writes_app tr1 tr2 :
  writes (tr1 ++ tr2) = writes tr1 ++ writes tr2.
Proof.
  induction tr1 as [|o tr1 IH]; [reflexivity|].
  destruct o; simpl; rewrite IH; reflexivity.
Qed.

(** [k] passes write [k] lines. *)
Lemma passes_writes c k tr c' :
  passes c k tr c' -> length (writes tr) = k.
Proof.
  induction 1 as [c|c k tr c' tr' c'' _ IH Hb]; [reflexivity|].
  rewrite writes_app, length_app, IH.
  apply runs_body_shape in Hb as (pre & file & text & -> & [->|[r ->]]);
    cbn; lia.
Qed.

(** ** The whole script *)

Lemma emits_app_unfold tr :
  emits app tr <->
  prefix_of tr banner \/
  exists t, emits (main_loop 0) t /\ tr = banner ++ t.
Proof.
  unfold app. rewrite emits_print_then.
  setoid_rewrite emits_print_then. unfold banner. split.
  - intros [->|(t1 & [->|(t2 & H & ->)] & ->)].
    + left. eexists. reflexivity.
    + left. eexists. reflexivity.
    + right. exists t2. auto.
  - intros [(rest & Hrest)|(t & H & ->)].
    + destruct tr as [|o1 [|o2 [|o3 tr]]]; cbn [app] in Hrest;
        [now left| | |discriminate]; right.
      * injection Hrest as <- _. exists []. auto.
      * injection Hrest as <- <- _. eexists. split; [|reflexivity].
        right. exists []. split; [apply performs_nil|reflexivity].
    + right. eexists. split; [|reflexivity]. right. exists t. auto.
Qed.

(** The behaviours of the script: the banner, then passes of the loop
    whose counter starts at [0]. *)
Lemma emits_app tr :
  emits app tr <->
  exists k itr c, passes 0 k itr c /\ prefix_of tr (banner ++ itr).
Proof.
  rewrite emits_app_unfold. split.
  - intros [(rest & Hrest)|(t & H & ->)].
    + exists 0%nat, [], 0. split; [apply passes_O|].
      exists rest. now rewrite app_nil_r.
    + apply emits_main_loop in H as (k & itr & c & Hp & rest & ->).
      exists k, (t ++ rest), c. split; [assumption|].
      exists rest. now rewrite app_assoc.
  - intros (k & itr & c & Hp & rest & Heq).
    assert (Hall : emits (main_loop 0) itr).
    { apply emits_main_loop. exists k, itr, c. split; [assumption|].
      exists []. now rewrite app_nil_r. }
    destruct (Nat.le_gt_cases (length tr) (length banner)) as [Hle|Hgt].
    + left. exists (firstn (length banner - length tr) rest).
      apply (f_equal (firstn (length banner))) in Heq.
      rewrite firstn_app, firstn_all, Nat.sub_diag, app_nil_r in Heq.
      rewrite firstn_app, firstn_all2 in Heq by assumption. exact Heq.
    + right. exists (skipn (length banner) tr). split.
      * apply performs_app_l with (tr2 := rest).
        apply (f_equal (skipn (length banner))) in Heq.
        rewrite skipn_app, skipn_all, Nat.sub_diag in Heq.
        rewrite skipn_app in Heq.
        replace (length banner - length tr)%nat with 0%nat in Heq by lia.
        cbn [skipn app] in Heq. now rewrite <- Heq.
      * apply (f_equal (firstn (length banner))) in Heq.
        rewrite firstn_app, firstn_all, Nat.sub_diag, app_nil_r in Heq.
        rewrite firstn_app in Heq.
        replace (length banner - length tr)%nat with 0%nat in Heq by lia.
        cbn [firstn] in Heq. rewrite app_nil_r in Heq.
        rewrite Heq at 1. symmetry. apply firstn_skipn.
Qed.

(** The script never reaches its end. *)
Lemma app_never_returns tr r :
  ~ runs app tr r.
Proof.
  unfold app. rewrite runs_print_then. intros (tr1 & H & _).
  rewrite runs_print_then in H. destruct H as (tr2 & H & _).
  exact (main_loop_never_returns 0 tr2 r H).
Qed.

(** ** Lines and numerals *)

Lemma line_ends_append (a b : string) :
  line_ends (a ++ b) = (line_ends a + line_ends b)%nat.
Proof.
  induction a as [|x a IH]; cbn [append line_ends]; [reflexivity|].
  rewrite IH. lia.
Qed.

Lemma line_ends_uint d :
  line_ends (NilEmpty.string_of_uint d) = 0%nat.
Proof. induction d; cbn; assumption || reflexivity. Qed.

Lemma line_ends_numeral d :
  line_ends (NilZero.string_of_uint d) = 0%nat.
Proof. destruct d; try reflexivity; apply line_ends_uint. Qed.

Lemma line_ends_str n :
  line_ends (str n) = 0%nat.
Proof.
  unfold str. destruct (Z.to_int n) as [d|d]; cbn [NilZero.string_of_int].
  - apply line_ends_numeral.
  - cbn [line_ends]. rewrite line_ends_numeral. reflexivity.
Qed.

Lemma int_str n :
  int (str n) = Some n.
Proof.
  unfold int, str. rewrite NilZero.isi.
  - cbn. now rewrite DecimalZ.of_to.
  - destruct n; cbn; try discriminate.
    intros [= H]. exact (DecimalPos.Unsigned.to_uint_nonnil _ H).
  - destruct n; cbn; try discriminate.
    intros [= H]. exact (DecimalPos.Unsigned.to_uint_nonnil _ H).
Qed.

(** ** Time *)

Lemma write_times_after now tr ts :
  clocked now tr ts -> Forall (fun t => (now <= t)%Q) (write_times tr ts).
Proof.
  revert now ts. induction tr as [|o tr IH]; intros now [|t ts] H;
    cbn in H; try contradiction; [constructor|].
  destruct H as [[Hle _] H]. apply IH in H.
  assert (Hall : Forall (fun u => (now <= u)%Q) (write_times tr ts)).
  { eapply Forall_impl; [|exact H]. cbn. intros u Hu.
    eapply Qle_trans; eassumption. }
  destruct o; cbn [write_times]; auto.
Qed.

Lemma spaced_cons d t ts :
  Forall (fun u => (t + d <= u)%Q) ts -> spaced d ts -> spaced d (t :: ts).
Proof.
  intros Hall Hsp. destruct ts as [|u ts]; [exact I|].
  split; [|exact Hsp]. now inversion Hall.
Qed.

(** A pass writes once, and the next call returns at least three seconds
    after that write did. *)
Lemma clocked_pass c tr c' rest now ts :
  runs (loop_body c) tr c' -> clocked now (tr ++ rest) ts ->
  exists w s ts',
    write_times (tr ++ rest) ts = w :: write_times rest ts' /\
    (w + 3 <= s)%Q /\ clocked s rest ts'.
Proof.
  intros H Hc.
  apply runs_body_shape in H as (pre & file & text & -> & [->|[r ->]]).
  - destruct ts as [|w [|s ts']]; cbn in Hc; try tauto.
    destruct Hc as (_ & [_ Hs] & Hc). exists w, s, ts'. auto.
  - destruct ts as [|d [|w [|s ts']]]; cbn in Hc; try tauto.
    destruct Hc as (_ & _ & [_ Hs] & Hc). exists w, s, ts'. auto.
Qed.

Lemma passes_uncons c k tr c'' :
  passes c (S k) tr c'' ->
  exists tr1 c' tr2,
    runs (loop_body c) tr1 c' /\ passes c' k tr2 c'' /\ tr = tr1 ++ tr2.
Proof.
  revert tr c''. induction k as [|k IH]; intros tr c'' H;
    inversion H as [|c0 k0 tr1 c1 tr2 c2 Hp Hb]; subst.
  - inversion Hp; subst. exists tr2, c'', []. repeat split.
    + assumption.
    + apply passes_O.
    + now rewrite app_nil_r.
  - apply IH in Hp as (ta & ca & tb & Ha & Hp & ->).
    exists ta, ca, (tb ++ tr2). repeat split.
    + assumption.
    + eapply passes_S; eassumption.
    + now rewrite app_assoc.
Qed.

(** Lines of consecutive passes are written at least three seconds apart. *)
Lemma passes_spaced k : forall c tr c' now ts,
  passes c k tr c' -> clocked now tr ts -> spaced 3 (write_times tr ts).
Proof.
  induction k as [|k IH]; intros c tr c' now ts Hp Hc.
  - inversion Hp; subst. exact I.
  - apply passes_uncons in Hp as (tr1 & c1 & tr2 & Hb & Hp & ->).
    destruct (clocked_pass _ _ _ _ _ _ Hb Hc) as (w & s & ts' & -> & Hs & Hc').
    apply spaced_cons; [|eapply IH; eassumption].
    apply write_times_after in Hc'.
    eapply Forall_impl; [|exact Hc']. cbn. intros u Hu.
    eapply Qle_trans; eassumption.
Qed.

(** ** The status line of a pass *)

(** C1. For every counter value [n] with [n mod 8 = 0], whatever the
    residues of [n] modulo 12 and 5, the pass that raises the counter to
    [n] writes the fixed import-error text to the standard error stream;
    it writes nothing else, then sleeps.  The test on 8 comes first in the
    [if]/[elif] chain, so 24 and 40 get this line too. *)
Theorem import_error_on_multiples_of_8 (n : Z) :
  n mod 8 = 0 ->
  forall tr c',
    runs (loop_body (n - 1)) tr c' <->
    tr = [Wrote stderr
            ("❌ ImportError: No module named 'requests'" ++ newline);
          Slept 3] /\
    c' = n.
Proof.
  intros H8 tr c'.
  replace n with (n - 1 + 1) in H8 by lia.
  rewrite (runs_body_error _ tr c' H8).
  now replace (n - 1 + 1) with n by lia.
Qed.

Lemma import_error_at_24 :
  24 mod 8 = 0 /\ 24 mod 12 = 0 /\
  runs (loop_body 23)
    [Wrote stderr ("❌ ImportError: No module named 'requests'" ++ newline);
     Slept 3] 24.
Proof.
  split; [reflexivity|]. split; [reflexivity|].
  apply (proj2 (import_error_on_multiples_of_8 24 eq_refl _ _)).
  split; reflexivity.
Defined.

Example import_error_at_40 :
  40 mod 5 = 0 /\
  forall tr c',
    runs (loop_body 39) tr c' ->
    writes tr =
    [(stderr, ("❌ ImportError: No module named 'requests'" ++ newline)%string)].
Proof.
  split; [reflexivity|]. intros tr c' H.
  apply (runs_body_error 39) in H as [-> _]; reflexivity.
Qed.

(** C3. For every counter value [n] with [n mod 8 <> 0] and
    [n mod 12 = 0], the pass writes the fixed success text to the standard
    output stream, and nothing else. *)
Theorem success_on_multiples_of_12 (n : Z) :
  n mod 8 <> 0 -> n mod 12 = 0 ->
  forall tr c',
    runs (loop_body (n - 1)) tr c' <->
    tr = [Wrote stdout ("✅ Database connection successful" ++ newline);
          Slept 3] /\
    c' = n.
Proof.
  intros H8 H12 tr c'.
  replace n with (n - 1 + 1) in H8, H12 by lia.
  rewrite (runs_body_success _ tr c' H8 H12).
  now replace (n - 1 + 1) with n by lia.
Qed.

Lemma success_at_12 :
  12 mod 8 <> 0 /\ 12 mod 12 = 0 /\
  runs (loop_body 11)
    [Wrote stdout ("✅ Database connection successful" ++ newline);
     Slept 3] 12.
Proof.
  split; [discriminate|]. split; [reflexivity|].
  refine (proj2 (success_on_multiples_of_12 12 _ eq_refl _ _) _).
  - discriminate.
  - split; reflexivity.
Defined.

(** C4. For every counter value [n] with [n mod 8 <> 0], [n mod 12 <> 0]
    and [n mod 5 = 0], the pass draws one integer [r] with
    [1 <= r <= 100] and writes the batch line carrying the numeral of [r]
    to the standard output stream.  The draw happens in no other branch,
    and the counter handed on is [n] whatever [r] was: the number drawn
    is printed and forgotten. *)
Theorem batch_line_on_multiples_of_5 (n : Z) :
  n mod 8 <> 0 -> n mod 12 <> 0 -> n mod 5 = 0 ->
  (forall tr c',
     runs (loop_body (n - 1)) tr c' <->
     exists r, 1 <= r <= 100 /\
       tr = [Drew 1 100 r;
             Wrote stdout (("📊 Processing data batch " ++ str r) ++ newline);
             Slept 3] /\
       c' = n) /\
  (forall m tr c',
     runs (loop_body (m - 1)) tr c' -> draws tr <> [] ->
     m mod 8 <> 0 /\ m mod 12 <> 0 /\ m mod 5 = 0).
Proof.
  intros H8 H12 H5. split.
  - intros tr c'.
    replace n with (n - 1 + 1) in H8, H12, H5 by lia.
    rewrite (runs_body_batch _ tr c' H8 H12 H5).
    now replace (n - 1 + 1) with n by lia.
  - clear. intros m tr c' H Hd.
    replace m with (m - 1 + 1) by lia. residues (m - 1 + 1).
    + apply runs_body_error in H as [-> _]; trivial. now elim Hd.
    + apply runs_body_success in H as [-> _]; trivial. now elim Hd.
    + auto.
    + apply runs_body_heartbeat in H as [-> _]; trivial. now elim Hd.
Qed.

Lemma batch_line_at_5 :
  (5 mod 8 <> 0 /\ 5 mod 12 <> 0 /\ 5 mod 5 = 0) /\
  runs (loop_body 4)
    [Drew 1 100 42;
     Wrote stdout ("📊 Processing data batch 42" ++ newline);
     Slept 3] 5.
Proof.
  split; [repeat split; discriminate|].
  refine (proj2 (proj1 (batch_line_on_multiples_of_5 5 _ _ eq_refl) _ _) _);
    [discriminate..|].
  exists 42. split; [lia|]. split; reflexivity.
Defined.

(** C5. For every counter value [n] that is a multiple of none of 8, 12
    and 5, the pass writes the heartbeat line to the standard output
    stream, and the line carries the decimal numeral of [n]: reading the
    numeral back gives [n].  For [n = 1] the line is
    "[INFO] Application running - iteration 1". *)
Theorem heartbeat_line_otherwise (n : Z) :
  n mod 8 <> 0 -> n mod 12 <> 0 -> n mod 5 <> 0 ->
  (forall tr c',
     runs (loop_body (n - 1)) tr c' <->
     tr = [Wrote stdout
             (("[INFO] Application running - iteration " ++ str n)
                ++ newline);
           Slept 3] /\
     c' = n) /\
  int (str n) = Some n.
Proof.
  intros H8 H12 H5. split; [|apply int_str]. intros tr c'.
  replace n with (n - 1 + 1) in H8, H12, H5 by lia.
  rewrite (runs_body_heartbeat _ tr c' H8 H12 H5).
  now replace (n - 1 + 1) with n by lia.
Qed.

Lemma heartbeat_line_at_1 :
  (1 mod 8 <> 0 /\ 1 mod 12 <> 0 /\ 1 mod 5 <> 0) /\
  runs (loop_body 0)
    [Wrote stdout ("[INFO] Application running - iteration 1" ++ newline);
     Slept 3] 1.
Proof.
  split; [repeat split; discriminate|].
  refine (proj2 (proj1 (heartbeat_line_otherwise 1 _ _ _) _ _) _);
    [discriminate..|].
  split; reflexivity.
Defined.

(** C2. For every counter value [n >= 1], the pass that raises the
    counter to [n] completes and writes exactly one line: one write, whose
    text is a single line closed by its line end.  So the first [n] passes
    of the loop write [n] lines. *)
Theorem one_line_per_iteration (n : Z) :
  1 <= n ->
  (exists tr, runs (loop_body (n - 1)) tr n) /\
  (forall tr c',
     runs (loop_body (n - 1)) tr c' ->
     exists file line,
       writes tr = [(file, (line ++ newline)%string)] /\
       line_ends line = 0%nat) /\
  (forall tr c, passes 0 (Z.to_nat n) tr c -> length (writes tr) = Z.to_nat n).
Proof.
  intros _. split; [|split].
  - destruct (runs_body_total (n - 1)) as [tr H].
    exists tr. now replace (n - 1 + 1) with n in H by lia.
  - intros tr c' H. residues (n - 1 + 1).
    + apply runs_body_error in H as [-> _]; trivial.
      eexists. eexists. split; reflexivity.
    + apply runs_body_success in H as [-> _]; trivial.
      eexists. eexists. split; reflexivity.
    + apply runs_body_batch in H as (r & _ & -> & _); trivial.
      eexists. eexists. split; [reflexivity|].
      rewrite line_ends_append, line_ends_str. reflexivity.
    + apply runs_body_heartbeat in H as [-> _]; trivial.
      eexists. eexists. split; [reflexivity|].
      rewrite line_ends_append, line_ends_str. reflexivity.
  - intros tr c. apply passes_writes.
Qed.

Lemma one_line_at_5 :
  1 <= 5 /\
  (exists tr, runs (loop_body 4) tr 5) /\
  (forall tr c',
     runs (loop_body 4) tr c' ->
     exists file line,
       writes tr = [(file, (line ++ newline)%string)] /\
       line_ends line = 0%nat) /\
  (forall tr c, passes 0 5 tr c -> length (writes tr) = 5%nat).
Proof.
  split; [lia|]. apply (one_line_per_iteration 5). lia.
Defined.

(** ** The counter and the loop *)

(** C6. The loop is entered with the counter at 0 (the behaviours of the
    script are the banner and passes entered at 0), and each pass adds
    exactly one to it before it tests anything.  So after [k] passes the
    counter is [k]; pass [k + 1] is the one that raises it to [k + 1], and
    it tests and prints that value: on a multiple of 8 it writes the error
    line, and when no test succeeds the heartbeat line carries the numeral
    of [k + 1].  The counter grows strictly, and beyond every bound. *)
Theorem counter_tracks_iteration
        (k : nat) (tr : list obs) (c : Z) (tr' : list obs) (c' bound : Z) :
  passes 0 k tr c -> runs (loop_body c) tr' c' ->
  c = Z.of_nat k /\
  c' = Z.of_nat (S k) /\
  c < c' /\
  runs (loop_body (Z.of_nat (S k) - 1)) tr' (Z.of_nat (S k)) /\
  (Z.of_nat (S k) mod 8 = 0 ->
   writes tr' =
   [(stderr,
     ("❌ ImportError: No module named 'requests'" ++ newline)%string)]) /\
  (Z.of_nat (S k) mod 8 <> 0 -> Z.of_nat (S k) mod 12 <> 0 ->
   Z.of_nat (S k) mod 5 <> 0 ->
   writes tr' =
   [(stdout,
     (("[INFO] Application running - iteration " ++ str (Z.of_nat (S k)))
        ++ newline)%string)]) /\
  emits app (banner ++ tr ++ tr') /\
  (forall t, emits app t ->
     exists m itr cm, passes 0 m itr cm /\ prefix_of t (banner ++ itr)) /\
  exists m trm cm, passes 0 m trm cm /\ bound < cm.
Proof.
  intros Hp Hb.
  assert (Hc : c = Z.of_nat k) by (apply passes_counter in Hp; lia).
  assert (Hc' : c' = Z.of_nat (S k))
    by (apply runs_body_counter in Hb; lia).
  assert (Hk : Z.of_nat (S k) = c + 1) by lia.
  split; [exact Hc|]. split; [exact Hc'|]. split; [lia|].
  split; [|split; [|split; [|split; [|split]]]].
  - rewrite <- Hc'. now replace (c' - 1) with c by lia.
  - rewrite Hk. intros H8.
    apply runs_body_error in Hb as [-> _]; trivial.
  - rewrite Hk. intros H8 H12 H5.
    apply runs_body_heartbeat in Hb as [-> _]; trivial.
  - apply emits_app. exists (S k), (tr ++ tr'), c'. split.
    + eapply passes_S; eassumption.
    + exists []. now rewrite app_nil_r.
  - intros t. apply emits_app.
  - destruct (passes_total 0 (S (Z.to_nat bound))) as [trm Hm].
    eexists. eexists. eexists. split; [exact Hm|]. lia.
Qed.

Lemma counter_tracks_first_pass :
  passes 0 0 [] 0 /\
  runs (loop_body 0)
    [Wrote stdout ("[INFO] Application running - iteration 1" ++ newline);
     Slept 3] 1 /\
  emits app
    (banner ++ [] ++
     [Wrote stdout ("[INFO] Application running - iteration 1" ++ newline);
      Slept 3]).
Proof.
  assert (H0 : passes 0 0 [] 0) by apply passes_O.
  assert (H1 : runs (loop_body 0)
                 [Wrote stdout
                    ("[INFO] Application running - iteration 1" ++ newline);
                  Slept 3] 1).
  { apply (runs_body_heartbeat 0); [discriminate..|]. split; reflexivity. }
  split; [exact H0|]. split; [exact H1|].
  exact (proj1 (proj2 (proj2 (proj2 (proj2 (proj2 (proj2
    (counter_tracks_iteration 0 [] 0 _ 1 0 H0 H1)))))))).
Defined.

(** C7. The error line is only a line.  After any pass, whichever branch
    fired, the counter is one higher and nothing else has changed: what
    the loop can do after the pass is exactly what the loop does when
    entered with the incremented counter, and nothing in it depends on
    the line just written. *)
Theorem error_line_is_cosmetic (c : Z) (tr : list obs) (c' : Z) :
  runs (loop_body c) tr c' ->
  c' = c + 1 /\
  forall rest,
    emits (main_loop c) (tr ++ rest) <-> emits (main_loop (c + 1)) rest.
Proof.
  intros Hb. pose proof (runs_body_counter _ _ _ Hb) as Hc. split; [exact Hc|].
  subst c'. intros rest. split.
  - intros H.
    apply emits_main_loop_unfold in H as [H|(tr1 & c1 & tr2 & H1 & H2 & Heq)].
    + apply (runs_body_maximal _ _ _ _ Hb) in H as ->. apply performs_nil.
    + destruct (runs_body_split _ _ _ _ _ _ _ Hb H1 Heq) as [<- ->].
      apply runs_body_counter in H1 as ->. exact H2.
  - intros H. apply emits_main_loop_unfold. right.
    exists tr, (c + 1), rest. auto.
Qed.

Lemma error_line_is_cosmetic_at_8 :
  runs (loop_body 7)
    [Wrote stderr ("❌ ImportError: No module named 'requests'" ++ newline);
     Slept 3] 8 /\
  forall rest,
    emits (main_loop 7)
      ([Wrote stderr
          ("❌ ImportError: No module named 'requests'" ++ newline);
        Slept 3] ++ rest) <->
    emits (main_loop 8) rest.
Proof.
  assert (H : runs (loop_body 7)
                [Wrote stderr
                   ("❌ ImportError: No module named 'requests'" ++ newline);
                 Slept 3] 8).
  { apply (runs_body_error 7); [reflexivity|]. split; reflexivity. }
  split; [exact H|].
  exact (proj2 (error_line_is_cosmetic 7 _ 8 H)).
Defined.

(** C8. The loop has no way out.  After [k] passes there is always a
    pass [k + 1]; whatever the script has done so far, it goes on to
    perform a further call; and it never runs to its end. *)
Theorem loop_never_halts
        (k : nat) (itr : list obs) (c : Z) (tr : list obs) :
  passes 0 k itr c -> emits app tr ->
  (exists tr', runs (loop_body c) tr' (c + 1) /\
               passes 0 (S k) (itr ++ tr') (c + 1)) /\
  (exists o, emits app (tr ++ [o])) /\
  (forall done r, ~ runs app done r).
Proof.
  intros Hp He. split; [|split].
  - destruct (runs_body_total c) as [tr' Hb]. exists tr'.
    split; [exact Hb|]. eapply passes_S; eassumption.
  - clear k itr c Hp.
    apply emits_app in He as (k & itr & c & Hp & [|o rest] & Heq).
    + destruct (runs_body_total c) as [tr' Hb].
      pose proof (runs_body_nonempty _ _ _ Hb) as Hlen.
      destruct tr' as [|o tr']; [cbn in Hlen; lia|].
      exists o. apply emits_app. exists (S k), (itr ++ o :: tr'), (c + 1).
      split; [eapply passes_S; eassumption|].
      exists tr'. rewrite app_nil_r in Heq.
      rewrite app_assoc, Heq, <- app_assoc. reflexivity.
    + exists o. apply emits_app. exists k, itr, c. split; [exact Hp|].
      exists rest. rewrite Heq, <- app_assoc. reflexivity.
  - intros done r. apply app_never_returns.
Qed.

Lemma loop_never_halts_at_start :
  passes 0 0 [] 0 /\ emits app [] /\
  (exists tr', runs (loop_body 0) tr' (0 + 1) /\
               passes 0 1 ([] ++ tr') (0 + 1)) /\
  (exists o, emits app ([] ++ [o])) /\
  (forall done r, ~ runs app done r).
Proof.
  assert (H0 : passes 0 0 [] 0) by apply passes_O.
  assert (He : emits app []) by apply performs_nil.
  split; [exact H0|]. split; [exact He|].
  exact (loop_never_halts 0 [] 0 [] H0 He).
Defined.

(** C9. Every pass ends with [time.sleep(3)], called right after the
    line is written and before the next pass begins.  Hence, on a clock
    against which a sleep of [secs] seconds takes at least [secs], the
    lines of consecutive passes are written at least three seconds
    apart. *)
Theorem sleep_three_after_each_line
        (c : Z) (tr : list obs) (c' : Z)
        (k : nat) (tr' : list obs) (c'' : Z) (now : Q) (ts : list Q) :
  runs (loop_body c) tr c' -> passes c' k tr' c'' ->
  clocked now (tr ++ tr') ts ->
  (exists pre file text,
     tr = pre ++ [Wrote file text; Slept 3] /\
     (pre = [] \/ exists r, pre = [Drew 1 100 r])) /\
  passes c (S k) (tr ++ tr') c'' /\
  spaced 3 (write_times (tr ++ tr') ts).
Proof.
  intros Hb Hp Hc.
  assert (Hall : passes c (S k) (tr ++ tr') c'')
    by (eapply passes_cons; eassumption).
  split; [|split].
  - eapply runs_body_shape; eassumption.
  - exact Hall.
  - eapply passes_spaced; eassumption.
Qed.

Lemma sleep_three_between_passes_1_and_2 :
  let line1 :=
    Wrote stdout ("[INFO] Application running - iteration 1" ++ newline) in
  let line2 :=
    Wrote stdout ("[INFO] Application running - iteration 2" ++ newline) in
  let ts := [1 # 10; 31 # 10; 16 # 5; 7 # 1]%Q in
  runs (loop_body 0) [line1; Slept 3] 1 /\
  passes 1 1 [line2; Slept 3] 2 /\
  clocked 0 ([line1; Slept 3] ++ [line2; Slept 3]) ts /\
  write_times ([line1; Slept 3] ++ [line2; Slept 3]) ts = [1 # 10; 16 # 5]%Q /\
  spaced 3 (write_times ([line1; Slept 3] ++ [line2; Slept 3]) ts).
Proof.
  intros line1 line2 ts.
  assert (H1 : runs (loop_body 0) [line1; Slept 3] 1).
  { apply (runs_body_heartbeat 0); [discriminate..|]. split; reflexivity. }
  assert (H2 : passes 1 1 [line2; Slept 3] 2).
  { apply (passes_S 1 0 [] 1 [line2; Slept 3] 2); [apply passes_O|].
    apply (runs_body_heartbeat 1); [discriminate..|]. split; reflexivity. }
  assert (Hc : clocked 0 ([line1; Slept 3] ++ [line2; Slept 3]) ts).
  { cbn. repeat split; discriminate. }
  split; [exact H1|]. split; [exact H2|]. split; [exact Hc|].
  split; [reflexivity|].
  exact (proj2 (proj2
    (sleep_three_after_each_line 0 _ 1 1 _ 2 0 ts H1 H2 Hc))).
Defined.

(** C10. Before the first pass of the loop the script writes two fixed
    banner lines to the standard output stream.  Every behaviour of the
    script is a prefix of the banner followed by passes of the loop; the
    banner lines are no line of any pass. *)
Theorem banner_precedes_iterations (tr : list obs) :
  (emits app tr <->
   exists k itr c, passes 0 k itr c /\ prefix_of tr (banner ++ itr)) /\
  writes banner =
  [(stdout, ("🐍 Starting Python application..." ++ newline)%string);
   (stdout, ("📁 Project: test-python" ++ newline)%string)] /\
  (forall c itr c' line,
     runs (loop_body c) itr c' ->
     In line (writes banner) -> ~ In line (writes itr)).
Proof.
  split; [apply emits_app|]. split; [reflexivity|].
  intros c itr c' line Hb Hin Hit.
  assert (Hline :
    line = (stdout, ("🐍 Starting Python application..." ++ newline)%string) \/
    line = (stdout, ("📁 Project: test-python" ++ newline)%string)).
  { cbn [banner writes In] in Hin. intuition. }
  clear Hin. residues (c + 1).
  - apply runs_body_error in Hb as [-> _]; trivial.
    cbn [writes In] in Hit. destruct Hit as [<-|[]].
    destruct Hline as [H|H]; discriminate H.
  - apply runs_body_success in Hb as [-> _]; trivial.
    cbn [writes In] in Hit. destruct Hit as [<-|[]].
    destruct Hline as [H|H]; cbn in H; discriminate H.
  - apply runs_body_batch in Hb as (r & _ & -> & _); trivial.
    cbn [writes In] in Hit. destruct Hit as [<-|[]].
    destruct Hline as [H|H]; cbn [append] in H; discriminate H.
  - apply runs_body_heartbeat in Hb as [-> _]; trivial.
    cbn [writes In] in Hit. destruct Hit as [<-|[]].
    destruct Hline as [H|H]; cbn [append] in H; discriminate H.
Qed.

(** ** A sample run *)

(** The first twelve passes against a generator whose raw output is
    constantly 41, so that [randint(1, 100)] draws 42. *)
Example sample_run :
  exec 40 (fun _ => 41) 0 app =
  banner ++
  [Wrote stdout ("[INFO] Application running - iteration 1" ++ newline);
   Slept 3;
   Wrote stdout ("[INFO] Application running - iteration 2" ++ newline);
   Slept 3;
   Wrote stdout ("[INFO] Application running - iteration 3" ++ newline);
   Slept 3;
   Wrote stdout ("[INFO] Application running - iteration 4" ++ newline);
   Slept 3;
   Drew 1 100 42;
   Wrote stdout ("📊 Processing data batch 42" ++ newline);
   Slept 3;
   Wrote stdout ("[INFO] Application running - iteration 6" ++ newline);
   Slept 3;
   Wrote stdout ("[INFO] Application running - iteration 7" ++ newline);
   Slept 3;
   Wrote stderr ("❌ ImportError: No module named 'requests'" ++ newline);
   Slept 3;
   Wrote stdout ("[INFO] Application running - iteration 9" ++ newline);
   Slept 3;
   Drew 1 100 42;
   Wrote stdout ("📊 Processing data batch 42" ++ newline);
   Slept 3;
   Wrote stdout ("[INFO] Application running - iteration 11" ++ newline);
   Slept 3;
   Wrote stdout ("✅ Database connection successful" ++ newline);
   Slept 3].
Proof. vm_compute. reflexivity. Qed.

Example sample_run_is_a_behaviour :
  emits app (exec 40 (fun _ => 41) 0 app).
Proof. apply exec_emits. Qed.

(** * Further properties of the script *)

(** ** What each stream receives *)

Lemma lines_on_app f tr1 tr2 :
  lines_on f (tr1 ++ tr2) = lines_on f tr1 ++ lines_on f tr2.
Proof.
  induction tr1 as [|o tr1 IH]; [reflexivity|].
  destruct o as [g text| |]; simpl; try exact IH.
  destruct (stream_eqb g f); simpl; now rewrite IH.
Qed.

(** Running one more pass in front. *)
Lemma passes_cons2 c o1 o2 c1 k rest c' :
  runs (loop_body c) [o1; o2] c1 -> passes c1 k rest c' ->
  passes c (S k) (o1 :: o2 :: rest) c'.
Proof. apply (passes_cons c [o1; o2]). Qed.

Lemma passes_cons3 c o1 o2 o3 c1 k rest c' :
  runs (loop_body c) [o1; o2; o3] c1 -> passes c1 k rest c' ->
  passes c (S k) (o1 :: o2 :: o3 :: rest) c'.
Proof. apply (passes_cons c [o1; o2; o3]). Qed.

Lemma first_twelve_passes : passes 0 12 first_twelve 12.
Proof.
  assert (Hbatch : forall c,
            (c + 1) mod 8 <> 0 -> (c + 1) mod 12 <> 0 -> (c + 1) mod 5 = 0 ->
            runs (loop_body c)
              [Drew 1 100 42;
               Wrote stdout ("📊 Processing data batch 42" ++ newline);
               Slept 3] (c + 1)).
  { intros c H8 H12 H5. apply runs_body_batch; trivial.
    exists 42. split; [lia|]. split; reflexivity. }
  unfold first_twelve.
  let tr := eval vm_compute in (skipn 2 (exec 40 (fun _ => 41) 0 app)) in
  change (passes 0 12 tr 12).
  apply (passes_cons2 0 _ _ 1); [now apply runs_body_heartbeat|].
  apply (passes_cons2 1 _ _ 2); [now apply runs_body_heartbeat|].
  apply (passes_cons2 2 _ _ 3); [now apply runs_body_heartbeat|].
  apply (passes_cons2 3 _ _ 4); [now apply runs_body_heartbeat|].
  apply (passes_cons3 4 _ _ _ 5); [now apply Hbatch|].
  apply (passes_cons2 5 _ _ 6); [now apply runs_body_heartbeat|].
  apply (passes_cons2 6 _ _ 7); [now apply runs_body_heartbeat|].
  apply (passes_cons2 7 _ _ 8); [now apply runs_body_error|].
  apply (passes_cons2 8 _ _ 9); [now apply runs_body_heartbeat|].
  apply (passes_cons3 9 _ _ _ 10); [now apply Hbatch|].
  apply (passes_cons2 10 _ _ 11); [now apply runs_body_heartbeat|].
  apply (passes_cons2 11 _ _ 12); [now apply runs_body_success|].
  apply passes_O.
Qed.

(** X1. After [k] passes of the loop entered at 0, the standard error
    stream has received the import-error line [k / 8] times and nothing
    else, and the standard output stream has received the other
    [k - k / 8] lines. *)
Theorem stderr_gets_every_eighth_line (k : nat) (tr : list obs) (c : Z) :
  passes 0 k tr c ->
  lines_on stderr tr =
  repeat ("❌ ImportError: No module named 'requests'" ++ newline)%string
         (Z.to_nat (Z.of_nat k / 8)) /\
  Z.of_nat (length (lines_on stdout tr)) = Z.of_nat k - Z.of_nat k / 8.
Proof.
  intros Hp. remember 0 as c0 eqn:Hc0.
  induction Hp as [c|c k tr c' tr' c'' Hp IH Hb]; subst c.
  - split; reflexivity.
  - destruct (IH eq_refl) as [IHe IHo]. clear IH.
    assert (c' = Z.of_nat k) as -> by (apply passes_counter in Hp; lia).
    rewrite !lines_on_app, length_app, IHe, Nat2Z.inj_add, IHo. clear IHe IHo.
    residues (Z.of_nat k + 1).
    + apply runs_body_error in Hb as [-> _]; trivial. cbn [lines_on stream_eqb].
      replace (Z.of_nat (S k) / 8) with (Z.of_nat k / 8 + 1)
        by (Z.div_mod_to_equations; lia).
      rewrite Z2Nat.inj_add by (Z.div_mod_to_equations; lia).
      rewrite repeat_app. split; [reflexivity|]. cbn [length]. lia.
    + apply runs_body_success in Hb as [-> _]; trivial.
      cbn [lines_on stream_eqb length].
      replace (Z.of_nat (S k) / 8) with (Z.of_nat k / 8)
        by (Z.div_mod_to_equations; lia).
      rewrite app_nil_r. split; [reflexivity|]. lia.
    + apply runs_body_batch in Hb as (r & _ & -> & _); trivial.
      cbn [lines_on stream_eqb length].
      replace (Z.of_nat (S k) / 8) with (Z.of_nat k / 8)
        by (Z.div_mod_to_equations; lia).
      rewrite app_nil_r. split; [reflexivity|]. lia.
    + apply runs_body_heartbeat in Hb as [-> _]; trivial.
      cbn [lines_on stream_eqb length].
      replace (Z.of_nat (S k) / 8) with (Z.of_nat k / 8)
        by (Z.div_mod_to_equations; lia).
      rewrite app_nil_r. split; [reflexivity|]. lia.
Qed.

Lemma stderr_after_twelve_passes :
  passes 0 12 first_twelve 12 /\
  lines_on stderr first_twelve =
  ["❌ ImportError: No module named 'requests'" ++ newline]%string /\
  Z.of_nat (length (lines_on stdout first_twelve)) = 11.
Proof.
  split; [exact first_twelve_passes|].
  exact (stderr_gets_every_eighth_line 12 first_twelve 12 first_twelve_passes).
Defined.

(** X2. The stream and the text tell the branch.  A pass writes to the
    standard error stream exactly when the counter it reaches is a
    multiple of 8, and it writes the success line exactly when that
    counter is 12 modulo 24: a multiple of 24 never reports success,
    because the test on 8 is made first. *)
Theorem success_line_schedule (n : Z) (tr : list obs) (c' : Z) :
  runs (loop_body (n - 1)) tr c' ->
  (lines_on stderr tr <> [] <-> n mod 8 = 0) /\
  (In ("✅ Database connection successful" ++ newline)%string
      (lines_on stdout tr) <-> n mod 24 = 12).
Proof.
  intros H. residues (n - 1 + 1).
  - apply runs_body_error in H as [-> _]; trivial.
    replace (n - 1 + 1) with n in * by lia.
    cbn [lines_on stream_eqb In]. split; split.
    + intros _. exact H8.
    + discriminate.
    + intros [].
    + intros Hn. Z.div_mod_to_equations. lia.
  - apply runs_body_success in H as [-> _]; trivial.
    replace (n - 1 + 1) with n in * by lia.
    cbn [lines_on stream_eqb In]. split; split.
    + intros Hne. now elim Hne.
    + intros Hn. now elim H8.
    + intros _. Z.div_mod_to_equations. lia.
    + intros _. now left.
  - apply runs_body_batch in H as (r & _ & -> & _); trivial.
    replace (n - 1 + 1) with n in * by lia.
    cbn [lines_on stream_eqb In]. split; split.
    + intros Hne. now elim Hne.
    + intros Hn. now elim H8.
    + intros [Heq|[]]. cbn [append] in Heq. discriminate Heq.
    + intros Hn. Z.div_mod_to_equations. lia.
  - apply runs_body_heartbeat in H as [-> _]; trivial.
    replace (n - 1 + 1) with n in * by lia.
    cbn [lines_on stream_eqb In]. split; split.
    + intros Hne. now elim Hne.
    + intros Hn. now elim H8.
    + intros [Heq|[]]. cbn [append] in Heq. discriminate Heq.
    + intros Hn. Z.div_mod_to_equations. lia.
Qed.

Lemma no_success_line_at_24 :
  runs (loop_body 23)
    [Wrote stderr ("❌ ImportError: No module named 'requests'" ++ newline);
     Slept 3] 24 /\
  ~ In ("✅ Database connection successful" ++ newline)%string
       (lines_on stdout
          [Wrote stderr
             ("❌ ImportError: No module named 'requests'" ++ newline);
           Slept 3]).
Proof.
  assert (H : runs (loop_body (24 - 1))
                [Wrote stderr
                   ("❌ ImportError: No module named 'requests'" ++ newline);
                 Slept 3] 24).
  { apply (runs_body_error 23); [reflexivity|]. split; reflexivity. }
  split; [exact H|].
  intros Hin. apply (proj2 (success_line_schedule 24 _ 24 H)) in Hin.
  discriminate Hin.
Defined.

(** ** The schedule repeats *)

(** X3. The branch taken depends on the counter modulo 120 only.  A pass
    that writes one of the three special lines has the same traces 120
    passes later; a pass that writes a heartbeat line is followed, 120
    passes later, by a pass that writes a heartbeat line again. *)
Theorem schedule_has_period_120 (n : Z) (tr : list obs) :
  runs (loop_body (n - 1)) tr n ->
  (n mod 8 = 0 \/ n mod 12 = 0 \/ n mod 5 = 0 ->
   runs (loop_body (n + 120 - 1)) tr (n + 120)) /\
  (n mod 8 <> 0 -> n mod 12 <> 0 -> n mod 5 <> 0 ->
   runs (loop_body (n + 120 - 1))
     [Wrote stdout
        (("[INFO] Application running - iteration " ++ str (n + 120))
           ++ newline);
      Slept 3] (n + 120)).
Proof.
  intros H.
  assert (E8 : (n + 120 - 1 + 1) mod 8 = (n - 1 + 1) mod 8)
    by (Z.div_mod_to_equations; lia).
  assert (E12 : (n + 120 - 1 + 1) mod 12 = (n - 1 + 1) mod 12)
    by (Z.div_mod_to_equations; lia).
  assert (E5 : (n + 120 - 1 + 1) mod 5 = (n - 1 + 1) mod 5)
    by (Z.div_mod_to_equations; lia).
  replace (n + 120) with (n + 120 - 1 + 1) at 2 4 by lia.
  residues (n - 1 + 1); rewrite <- ?E8, <- ?E12, <- ?E5 in *.
  - apply runs_body_error in H as [-> _]; [|congruence]. split.
    + intros _. now apply runs_body_error.
    + intros Hn. replace (n - 1 + 1) with n in * by lia. congruence.
  - apply runs_body_success in H as [-> _]; [|congruence..]. split.
    + intros _. now apply runs_body_success.
    + intros _ Hn. replace (n - 1 + 1) with n in * by lia. congruence.
  - apply runs_body_batch in H as (r & Hr & -> & _); [|congruence..]. split.
    + intros _. apply runs_body_batch; trivial. exists r. auto.
    + intros _ _ Hn. replace (n - 1 + 1) with n in * by lia. congruence.
  - split.
    + replace (n - 1 + 1) with n in * by lia. intros [Hn|[Hn|Hn]]; congruence.
    + intros _ _ _. apply runs_body_heartbeat; trivial.
      replace (n + 120 - 1 + 1) with (n + 120) by lia. auto.
Qed.

Lemma schedule_repeats_at_132 :
  runs (loop_body 11)
    [Wrote stdout ("✅ Database connection successful" ++ newline);
     Slept 3] 12 /\
  runs (loop_body 131)
    [Wrote stdout ("✅ Database connection successful" ++ newline);
     Slept 3] 132.
Proof.
  assert (H : runs (loop_body (12 - 1))
                [Wrote stdout ("✅ Database connection successful" ++ newline);
                 Slept 3] 12).
  { apply (runs_body_success 11); [discriminate|reflexivity|].
    split; reflexivity. }
  split; [exact H|].
  apply (proj1 (schedule_has_period_120 12 _ H)). right. left. reflexivity.
Defined.

(** ** The only freedom is in the numbers drawn *)

Lemma draws_app tr1 tr2 :
  draws (tr1 ++ tr2) = draws tr1 ++ draws tr2.
Proof.
  induction tr1 as [|o tr1 IH]; [reflexivity|].
  destruct o; simpl; rewrite IH; reflexivity.
Qed.





(** ** Elapsed time *)

Lemma last_nonempty {A} (l : list A) (x d d' : A) :
  last (x :: l) d = last (x :: l) d'.
Proof.
  revert x. induction l as [|y l IH]; intros x; [reflexivity|].
  change (last (y :: l) d = last (y :: l) d'). apply IH.
Qed.

(** A pass takes at least three seconds. *)
Lemma clocked_pass_end c tr c' rest now ts :
  runs (loop_body c) tr c' -> clocked now (tr ++ rest) ts ->
  exists s ts',
    (now + 3 <= s)%Q /\ clocked s rest ts' /\ last ts now = last ts' s.
Proof.
  intros H Hc.
  apply runs_body_shape in H as (pre & file & text & -> & [->|[r ->]]).
  - destruct ts as [|w [|s ts']]; cbn in Hc; try tauto.
    destruct Hc as ([Hw _] & [_ Hs] & Hc). exists s, ts'.
    change (inject_Z 3) with 3%Q in Hs.
    split; [lra|]. split; [exact Hc|].
    destruct ts' as [|q ts']; [reflexivity|].
    cbn [last]. apply last_nonempty.
  - destruct ts as [|d [|w [|s ts']]]; cbn in Hc; try tauto.
    destruct Hc as ([Hd _] & [Hw _] & [_ Hs] & Hc). exists s, ts'.
    change (inject_Z 3) with 3%Q in Hs.
    split; [lra|]. split; [exact Hc|].
    destruct ts' as [|q ts']; [reflexivity|].
    cbn [last]. apply last_nonempty.
Qed.

(** X5. On a clock against which a sleep of [secs] seconds takes at least
    [secs], [k] passes of the loop take at least [3 * k] seconds: the last
    call of the [k]-th pass returns no earlier than that after the first
    pass began. *)
Theorem passes_take_three_seconds_each
        (k : nat) (c : Z) (tr : list obs) (c' : Z) (now : Q) (ts : list Q) :
  passes c k tr c' -> clocked now tr ts ->
  (now + 3 * inject_Z (Z.of_nat k) <= last ts now)%Q.
Proof.
  revert c tr c' now ts.
  induction k as [|k IH]; intros c tr c' now ts Hp Hc.
  - inversion Hp; subst. destruct ts; [|contradiction].
    change (inject_Z (Z.of_nat 0)) with 0%Q. cbn [last]. lra.
  - apply passes_uncons in Hp as (tr1 & c1 & tr2 & Hb & Hp & ->).
    destruct (clocked_pass_end _ _ _ _ _ _ Hb Hc) as (s & ts' & Hs & Hc' & ->).
    specialize (IH _ _ _ _ _ Hp Hc').
    rewrite Nat2Z.inj_succ. unfold Z.succ. rewrite inject_Z_plus.
    change (inject_Z 1) with 1%Q. lra.
Qed.

Lemma two_passes_take_six_seconds :
  let line1 :=
    Wrote stdout ("[INFO] Application running - iteration 1" ++ newline) in
  let line2 :=
    Wrote stdout ("[INFO] Application running - iteration 2" ++ newline) in
  let ts := [1 # 10; 31 # 10; 16 # 5; 7 # 1]%Q in
  passes 0 2 ([line1; Slept 3] ++ [line2; Slept 3]) 2 /\
  clocked 0 ([line1; Slept 3] ++ [line2; Slept 3]) ts /\
  (0 + 3 * inject_Z 2 <= 7 # 1)%Q.
Proof.
  intros line1 line2 ts.
  assert (Hp : passes 0 2 ([line1; Slept 3] ++ [line2; Slept 3]) 2).
  { apply (passes_S 0 1 [line1; Slept 3] 1 [line2; Slept 3] 2).
    - apply (passes_S 0 0 [] 0 [line1; Slept 3] 1); [apply passes_O|].
      apply (runs_body_heartbeat 0); [discriminate..|]. split; reflexivity.
    - apply (runs_body_heartbeat 1); [discriminate..|]. split; reflexivity. }
  assert (Hc : clocked 0 ([line1; Slept 3] ++ [line2; Slept 3]) ts).
  { cbn. repeat split; discriminate. }
  split; [exact Hp|]. split; [exact Hc|].
  exact (passes_take_three_seconds_each 2 0 _ 2 0 ts Hp Hc).
Defined.

(** The error line comes round every eighth pass, hence at most once in
    24 seconds.  From counter [c], [(- (c + 1)) mod 8] passes come before
    the next error line. *)
Lemma times_on_pass c tr c' rest now ts :
  runs (loop_body c) tr c' -> clocked now (tr ++ rest) ts ->
  exists w s ts',
    (now <= w)%Q /\ (w + 3 <= s)%Q /\ clocked s rest ts' /\
    times_on stderr (tr ++ rest) ts =
    if (c + 1) mod 8 =? 0 then w :: times_on stderr rest ts'
    else times_on stderr rest ts'.
Proof.
  intros H Hc. residues (c + 1).
  - apply runs_body_error in H as [-> _]; trivial.
    destruct ts as [|w [|s ts']]; cbn in Hc; try tauto.
    destruct Hc as ([Hw _] & [_ Hs] & Hc). exists w, s, ts'. auto.
  - apply runs_body_success in H as [-> _]; trivial.
    destruct ts as [|w [|s ts']]; cbn in Hc; try tauto.
    destruct Hc as ([Hw _] & [_ Hs] & Hc). exists w, s, ts'. auto.
  - apply runs_body_batch in H as (r & _ & -> & _); trivial.
    destruct ts as [|d [|w [|s ts']]]; cbn in Hc; try tauto.
    destruct Hc as ([Hd _] & [Hw _] & [_ Hs] & Hc). exists w, s, ts'.
    split; [lra|]. auto.
  - apply runs_body_heartbeat in H as [-> _]; trivial.
    destruct ts as [|w [|s ts']]; cbn in Hc; try tauto.
    destruct Hc as ([Hw _] & [_ Hs] & Hc). exists w, s, ts'. auto.
Qed.

Lemma passes_error_times k : forall c tr c' now ts,
  passes c k tr c' -> clocked now tr ts ->
  spaced 24 (times_on stderr tr ts) /\
  Forall (fun t => (now + 3 * inject_Z ((- (c + 1)) mod 8) <= t)%Q)
         (times_on stderr tr ts).
Proof.
  induction k as [|k IH]; intros c tr c' now ts Hp Hc.
  - inversion Hp; subst. split; [exact I|constructor].
  - apply passes_uncons in Hp as (tr1 & c1 & tr2 & Hb & Hp & ->).
    destruct (times_on_pass _ _ _ _ _ _ Hb Hc)
      as (w & s & ts' & Hw & Hs & Hc' & ->).
    apply runs_body_counter in Hb as ->.
    destruct (IH _ _ _ _ _ Hp Hc') as [IHs IHf]. clear IH.
    destruct ((c + 1) mod 8 =? 0) eqn:H8.
    + apply Z.eqb_eq in H8.
      replace ((- (c + 1)) mod 8) with 0 by (Z.div_mod_to_equations; lia).
      replace ((- (c + 1 + 1)) mod 8) with 7 in IHf
        by (Z.div_mod_to_equations; lia).
      change (inject_Z 0) with 0%Q. change (inject_Z 7) with 7%Q in IHf.
      split.
      * apply spaced_cons; [|exact IHs].
        eapply Forall_impl; [|exact IHf]. cbn. intros u Hu. lra.
      * constructor; [lra|].
        eapply Forall_impl; [|exact IHf]. cbn. intros u Hu. lra.
    + apply Z.eqb_neq in H8. split; [exact IHs|].
      replace ((- (c + 1 + 1)) mod 8) with ((- (c + 1)) mod 8 - 1) in IHf
        by (Z.div_mod_to_equations; lia).
      unfold Z.sub in IHf. rewrite inject_Z_plus in IHf.
      change (inject_Z (- (1))) with (- (1))%Q in IHf.
      eapply Forall_impl; [|exact IHf]. cbn. intros u Hu. lra.
Qed.

(** X6. On such a clock, two consecutive lines on the standard error
    stream are written at least 24 seconds apart. *)
Theorem error_lines_24_seconds_apart
        (c : Z) (k : nat) (tr : list obs) (c' : Z) (now : Q) (ts : list Q) :
  passes c k tr c' -> clocked now tr ts ->
  spaced 24 (times_on stderr tr ts).
Proof.
  intros Hp Hc. eapply passes_error_times; eassumption.
Qed.

Lemma error_lines_apart_from_8_to_16 :
  let err :=
    Wrote stderr ("❌ ImportError: No module named 'requests'" ++ newline) in
  let beat n :=
    Wrote stdout
      (("[INFO] Application running - iteration " ++ str n) ++ newline) in
  let batch :=
    Wrote stdout ("📊 Processing data batch 42" ++ newline) in
  let ok :=
    Wrote stdout ("✅ Database connection successful" ++ newline) in
  let tr :=
    [err; Slept 3] ++ [beat 9; Slept 3] ++
    [Drew 1 100 42; batch; Slept 3] ++ [beat 11; Slept 3] ++
    [ok; Slept 3] ++ [beat 13; Slept 3] ++ [beat 14; Slept 3] ++
    [Drew 1 100 42; batch; Slept 3] ++ [err; Slept 3] in
  let ts :=
    [0; 3] ++ [3; 6] ++ [6; 6; 9] ++ [9; 12] ++ [12; 15] ++ [15; 18] ++
    [18; 21] ++ [21; 21; 24] ++ [24; 27] in
  passes 7 9 tr 16 /\
  clocked 0 tr (map inject_Z ts) /\
  times_on stderr tr (map inject_Z ts) = [0; 24]%Q /\
  spaced 24 (times_on stderr tr (map inject_Z ts)).
Proof.
  intros err beat batch ok tr ts.
  assert (Hp : passes 7 9 tr 16).
  { unfold tr.
    apply (passes_cons 7 _ 8); [now apply runs_body_error|].
    apply (passes_cons 8 _ 9); [now apply runs_body_heartbeat|].
    apply (passes_cons 9 _ 10);
      [apply runs_body_batch; [discriminate..|reflexivity|];
       exists 42; split; [lia|]; split; reflexivity|].
    apply (passes_cons 10 _ 11); [now apply runs_body_heartbeat|].
    apply (passes_cons 11 _ 12); [now apply runs_body_success|].
    apply (passes_cons 12 _ 13); [now apply runs_body_heartbeat|].
    apply (passes_cons 13 _ 14); [now apply runs_body_heartbeat|].
    apply (passes_cons 14 _ 15);
      [apply runs_body_batch; [discriminate..|reflexivity|];
       exists 42; split; [lia|]; split; reflexivity|].
    rewrite <- (app_nil_r [err; Slept 3]).
    apply (passes_cons 15 _ 16); [now apply runs_body_error|].
    apply passes_O. }
  assert (Hc : clocked 0 tr (map inject_Z ts)).
  { cbn. repeat split; discriminate. }
  split; [exact Hp|]. split; [exact Hc|]. split; [reflexivity|].
  exact (error_lines_24_seconds_apart 7 9 tr 16 0 (map inject_Z ts) Hp Hc).
Defined.

(** ** Reading the lines back *)

Lemma chars_append (a b : string) :
  list_ascii_of_string (a ++ b) =
  list_ascii_of_string a ++ list_ascii_of_string b.
Proof.
  induction a as [|x a IH]; [reflexivity|].
  cbn [append list_ascii_of_string app]. now rewrite IH.
Qed.

Lemma chars_inj (a b : string) :
  list_ascii_of_string a = list_ascii_of_string b -> a = b.
Proof.
  intros H. apply (f_equal string_of_list_ascii) in H.
  now rewrite !string_of_list_ascii_of_string in H.
Qed.

(** A text between a fixed prefix and a fixed suffix can be recovered. *)
Lemma append_cancel (p a b q : string) :
  ((p ++ a) ++ q = (p ++ b) ++ q)%string -> a = b.
Proof.
  intros H. apply (f_equal list_ascii_of_string) in H.
  rewrite !chars_append in H.
  apply app_inv_tail, app_inv_head in H. now apply chars_inj.
Qed.

Lemma str_inj n m : str n = str m -> n = m.
Proof.
  intros H. apply (f_equal int) in H. rewrite !int_str in H. congruence.
Qed.

(** X7. A heartbeat line tells which pass wrote it: if the pass that
    reaches counter [n] writes a heartbeat line, no pass reaching another
    counter performs the same trace. *)
Theorem heartbeat_identifies_iteration (n m : Z) (tr : list obs) :
  n mod 8 <> 0 -> n mod 12 <> 0 -> n mod 5 <> 0 ->
  runs (loop_body (n - 1)) tr n -> runs (loop_body (m - 1)) tr m ->
  n = m.
Proof.
  intros N8 N12 N5 Hn Hm.
  replace n with (n - 1 + 1) in N8, N12, N5 by lia.
  apply runs_body_heartbeat in Hn as [-> _]; trivial.
  residues (m - 1 + 1).
  - apply runs_body_error in Hm as [Hm _]; trivial. discriminate Hm.
  - apply runs_body_success in Hm as [Hm _]; trivial.
    cbn [append] in Hm. discriminate Hm.
  - apply runs_body_batch in Hm as (r & _ & Hm & _); trivial. discriminate Hm.
  - apply runs_body_heartbeat in Hm as [Hm _]; trivial.
    injection Hm as Hm. apply (append_cancel EmptyString), str_inj in Hm. lia.
Qed.

Lemma heartbeat_identifies_iteration_1 :
  runs (loop_body 0)
    [Wrote stdout ("[INFO] Application running - iteration 1" ++ newline);
     Slept 3] 1 /\
  1 = 1.
Proof.
  assert (H : runs (loop_body (1 - 1))
                [Wrote stdout
                   ("[INFO] Application running - iteration 1" ++ newline);
                 Slept 3] 1).
  { apply (runs_body_heartbeat 0); [discriminate..|]. split; reflexivity. }
  split; [exact H|].
  refine (heartbeat_identifies_iteration 1 1 _ _ _ _ H H); discriminate.
Defined.

(** ** How often each line is written *)

(** X8. Among the first [k] passes of the loop, [(k + 12) / 24] write the
    success line, and [k/5 - k/40 - k/60 + k/120] draw a number and write a
    batch line. *)
Theorem success_and_batch_counts (k : nat) (tr : list obs) (c : Z) :
  passes 0 k tr c ->
  Z.of_nat
    (count_occ string_dec (lines_on stdout tr)
       ("✅ Database connection successful" ++ newline)%string) =
  (Z.of_nat k + 12) / 24 /\
  Z.of_nat (length (draws tr)) =
  Z.of_nat k / 5 - Z.of_nat k / 40 - Z.of_nat k / 60 + Z.of_nat k / 120.
Proof.
  intros Hp. remember 0 as c0 eqn:Hc0.
  induction Hp as [c|c k tr c' tr' c'' Hp IH Hb]; subst c.
  - split; reflexivity.
  - destruct (IH eq_refl) as [IHs IHd]. clear IH.
    assert (c' = Z.of_nat k) as -> by (apply passes_counter in Hp; lia).
    rewrite lines_on_app, count_occ_app, draws_app, length_app.
    rewrite !Nat2Z.inj_add, IHs, IHd. clear IHs IHd Hp.
    rewrite Nat2Z.inj_succ. unfold Z.succ.
    residues (Z.of_nat k + 1).
    + apply runs_body_error in Hb as [-> _]; trivial.
      cbn [lines_on stream_eqb draws length count_occ].
      split; Z.div_mod_to_equations; lia.
    + apply runs_body_success in Hb as [-> _]; trivial.
      cbn [lines_on stream_eqb draws length count_occ].
      destruct (string_dec _ _) as [_|Hne]; [|now elim Hne].
      split; Z.div_mod_to_equations; lia.
    + apply runs_body_batch in Hb as (r & _ & -> & _); trivial.
      cbn [lines_on stream_eqb draws length count_occ].
      destruct (string_dec _ _) as [Heq|_];
        [cbn [append] in Heq; discriminate Heq|].
      split; Z.div_mod_to_equations; lia.
    + apply runs_body_heartbeat in Hb as [-> _]; trivial.
      cbn [lines_on stream_eqb draws length count_occ].
      destruct (string_dec _ _) as [Heq|_];
        [cbn [append] in Heq; discriminate Heq|].
      split; Z.div_mod_to_equations; lia.
Qed.

Lemma success_and_batch_counts_after_12 :
  passes 0 12 first_twelve 12 /\
  Z.of_nat
    (count_occ string_dec (lines_on stdout first_twelve)
       ("✅ Database connection successful" ++ newline)%string) = 1 /\
  Z.of_nat (length (draws first_twelve)) = 2.
Proof.
  split; [exact first_twelve_passes|].
  exact (success_and_batch_counts 12 first_twelve 12 first_twelve_passes).
Defined.

(** ** What the script never does *)

Lemma passes_expected c k tr c' :
  passes c k tr c' -> Forall expected tr.
Proof.
  induction 1 as [c|c k tr c' tr' c'' _ IH Hb]; [constructor|].
  apply Forall_app. split; [exact IH|]. residues (c' + 1).
  - apply runs_body_error in Hb as [-> _]; trivial.
    repeat constructor.
  - apply runs_body_success in Hb as [-> _]; trivial.
    repeat constructor.
  - apply runs_body_batch in Hb as (r & Hr & -> & _); trivial.
    constructor; [cbn; auto|]. repeat constructor.
  - apply runs_body_heartbeat in Hb as [-> _]; trivial.
    repeat constructor.
Qed.

(** X9. Whatever the script has done so far, complete passes or not, it
    has written nothing but the import-error line to the standard error
    stream, it has asked [randint] for numbers between 1 and 100 only and
    got such numbers, and every sleep it has taken lasted three seconds. *)
Theorem script_makes_only_expected_calls (tr : list obs) :
  emits app tr -> Forall expected tr.
Proof.
  intros H. apply emits_app in H as (k & itr & c & Hp & rest & Heq).
  assert (Hall : Forall expected (banner ++ itr)).
  { apply Forall_app. split; [repeat constructor|].
    eapply passes_expected; eassumption. }
  rewrite Heq in Hall. now apply Forall_app in Hall as [Hall _].
Qed.

Lemma sample_run_makes_only_expected_calls :
  emits app (exec 40 (fun _ => 41) 0 app) /\
  Forall expected (exec 40 (fun _ => 41) 0 app).
Proof.
  assert (H : emits app (exec 40 (fun _ => 41) 0 app)) by apply exec_emits.
  split; [exact H|].
  exact (script_makes_only_expected_calls _ H).
Defined.

Lemma prefix_append (p x : string) :
  prefix p (p ++ x) = true.
Proof.
  induction p as [|a p IH]; [now destruct x|].
  cbn [append prefix]. destruct (ascii_dec a a) as [_|Hne]; [exact IH|].
  now elim Hne.
Qed.

(** X10. The batch lines show the numbers drawn: in any sequence of
    passes, the lines on the standard output stream that begin with the
    batch text are, in order, the batch lines of the numbers drawn, one
    line for each draw. *)
Theorem batch_lines_show_the_draws
        (c : Z) (k : nat) (tr : list obs) (c' : Z) :
  passes c k tr c' ->
  filter (fun text => prefix "📊 Processing data batch " text)
         (lines_on stdout tr) =
  map (fun r => (("📊 Processing data batch " ++ str r) ++ newline)%string)
      (draws tr).
Proof.
  induction 1 as [c|c k tr c' tr' c'' _ IH Hb]; [reflexivity|].
  rewrite lines_on_app, filter_app, draws_app, map_app, IH. f_equal.
  residues (c' + 1).
  - apply runs_body_error in Hb as [-> _]; trivial; try reflexivity.
  - apply runs_body_success in Hb as [-> _]; trivial; try reflexivity.
  - apply runs_body_batch in Hb as (r & _ & -> & _); trivial.
    cbn [lines_on stream_eqb draws map filter].
    change (("📊 Processing data batch " ++ str r) ++ newline)%string
      with ("📊 Processing data batch " ++ (str r ++ newline))%string at 1.
    now rewrite prefix_append.
  - apply runs_body_heartbeat in Hb as [-> _]; trivial; try reflexivity.
Qed.

Lemma batch_lines_of_first_twelve :
  passes 0 12 first_twelve 12 /\
  filter (fun text => prefix "📊 Processing data batch " text)
         (lines_on stdout first_twelve) =
  [("📊 Processing data batch 42" ++ newline)%string;
   ("📊 Processing data batch 42" ++ newline)%string].
Proof.
  split; [exact first_twelve_passes|].
  exact (batch_lines_show_the_draws 0 12 first_twelve 12 first_twelve_passes).
Defined.
